(** * awsimages: the multi-region fan-out of provider/awsimages/aws.go

    A shallow embedding of [New], [MultiImages] and [Help], with the Go
    heap (the [*AwsImages] objects and the [map] objects they and the
    fan-out share) passed explicitly, and the goroutines of [MultiImages]
    as a step relation over the pool of launched workers. *)

From Stdlib Require Import ZArith Ascii.
From stdpp Require Import gmap strings list fin_maps relations sorting.

(** ** Data model *)

(** Modelled from the spec: [ec2.Image] belongs to the SDK, and [byTime],
    the only reader of its fields, is declared elsewhere in the package.
    An image is "a provider-described machine image record (identifier,
    creation timestamp, owner, name ...)"; the creation timestamp is kept
    as the instant it denotes. *)
Record Image := {
  ImageId : string;
  Name : string;
  OwnerId : string;
  CreationDate : Z
}.

Record DescribeImagesInput := {
  ImageIds : list string;
  Owners : list string;
  ExecutableUsers : list string
}.

Record DescribeImagesOutput := {
  Images : list Image
}.

(** Go [error] values: the ones [errors.New] builds and the ones the SDK
    hands back from a failed request. *)
Inductive error : Type :=
| errors_New (text : string)
| awserr_New (code message : string).

(** [*ec2.EC2]: the handle of one region.  What a request against the
    region answers is a pair [(resp, err)], [err = None] standing for
    Go's [nil]; with a nil error the SDK hands back a response, whose
    [Images] the goroutine reads. *)
Record EC2 := {
  DescribeImages : DescribeImagesInput → DescribeImagesOutput * option error
}.

(** [multierror.Error] of hashicorp/go-multierror. *)
Record multierror_Error := {
  Errors : list error
}.

(** [multierror.Append(err, errs...)], for an accumulator that is [nil]
    or a [*multierror.Error] (the only two shapes the variable
    [multiErrors] ever takes): a nil accumulator starts a new
    [multierror.Error], an existing one has the errors added at the end.
    The errors passed in are the ones a handle returns, none of them a
    [*multierror.Error] to be flattened. *)
Definition multierror_Append (err : option multierror_Error) (errs : list error)
  : multierror_Error :=
  match err with
  | Some e => {| Errors := Errors e ++ errs |}
  | None => {| Errors := errs |}
  end.

(** Modelled from the spec: [multiRegion] is declared outside aws.go; the
    fan-out ranges over its field [regions], "one authenticated service
    handle per resolved region, keyed by region identifier". *)
Record multiRegion := {
  regions : gmap string EC2
}.

Definition loc := positive.

(** [type MultiImages map[string][]*ec2.Image]; a Go map is a reference,
    so [AwsImages] holds the address of its map object. *)
Record AwsImages := {
  services : multiRegion;
  images : loc
}.

(** The heap: the [AwsImages] objects behind [*AwsImages] pointers and
    the map objects behind [MultiImages] values. *)
Record Heap := {
  objects : gmap loc AwsImages;
  maps : gmap loc (gmap string (list Image))
}.

(** [make(map[string][]*ec2.Image)] *)
Definition make_map (σ : Heap) : loc * Heap :=
  let l := fresh (dom (maps σ)) in
  (l, {| objects := objects σ; maps := <[l := ∅]> (maps σ) |}).

(** [m[k] = v] for the map object at [l] (a write through an address that
    holds no map changes nothing here; [MultiImages] only writes to the
    map it has just made). *)
Definition map_assign (l : loc) (k : string) (v : list Image) (σ : Heap) : Heap :=
  {| objects := objects σ; maps := alter (insert k v) l (maps σ) |}.

(** ** Result ordering *)

(** Modelled from the spec: [byTime.Less], "ascending sort by creation
    timestamp" (the call in [MultiImages] is commented "sort from oldest
    to newest"): element [x] goes before [y] when it was created before. *)
Definition byTime_Less (x y : Image) : bool :=
  (CreationDate x <? CreationDate y)%Z.

Definition Less := Image → Image → bool.

(** What [sort.Sort] asks of [Less]: a strict weak ordering. *)
Record strict_weak (less : Less) : Prop := {
  less_irrefl : ∀ x, less x x = false;
  less_trans : ∀ x y z, less x y = true → less y z = true → less x z = true;
  less_incomp : ∀ x y z,
    less x y = false → less y x = false →
    less y z = false → less z y = false →
    less x z = false ∧ less z x = false
}.

(** [IsSorted]: no element is [Less] than the one before it. *)
Definition ascending (less : Less) (x y : Image) : Prop := less y x = false.

(** The contract of [sort.Sort]: the elements are rearranged into
    ascending order; nothing is promised about elements that compare
    equal (the sort is not stable). *)
Definition sort_contract (srt : Less → list Image → list Image) : Prop :=
  ∀ less data, strict_weak less →
    srt less data ≡ₚ data ∧ Sorted (ascending less) (srt less data).

(** A sort that meets the contract, to run the model with. *)
Fixpoint insert_sorted (less : Less) (x : Image) (data : list Image) : list Image :=
  match data with
  | [] => [x]
  | y :: rest => if less x y then x :: y :: rest else y :: insert_sorted less x rest
  end.

Definition insertion_sort (less : Less) (data : list Image) : list Image :=
  foldr (insert_sorted less) [] data.

(** ** MultiImages *)

(** The variables the goroutines share under [mu]: the heap (they write
    to the map [images]) and [multiErrors]. *)
Record Shared := {
  heap : Heap;
  multiErrors : option multierror_Error
}.

(** The goroutines still to reach their critical section, and the
    shared variables. *)
Record Pool := {
  running : list (string * EC2);
  shared : Shared
}.

Section FanOut.

(** [sort.Sort] of the Go library: any function, constrained by
    [sort_contract] only where the order of the result matters. *)
Variable sort_Sort : Less → list Image → list Image.

(** [if len(resp.Images) > 1 { sort.Sort(byTime(resp.Images)) }] *)
Definition sortImages (imgs : list Image) : list Image :=
  if 1 <? length imgs then sort_Sort byTime_Less imgs else imgs.

(** One goroutine [func(region string, svc *ec2.EC2)]: the request,
    then the critical section between [mu.Lock()] and [mu.Unlock()]. *)
Definition goroutine (images : loc) (input : DescribeImagesInput)
    (region : string) (svc : EC2) (s : Shared) : Shared :=
  let '(resp, err) := DescribeImages svc input in
  match err with
  | Some e =>
      {| heap := heap s;
         multiErrors := Some (multierror_Append (multiErrors s) [e]) |}
  | None =>
      {| heap := map_assign images region (sortImages (Images resp)) (heap s);
         multiErrors := multiErrors s |}
  end.

(** The mutex makes the critical sections atomic and the requests touch
    no shared variable, so a run of the goroutines is a sequence of
    steps, each one taking any launched goroutine through its body. *)
Inductive step (images : loc) (input : DescribeImagesInput) : Pool → Pool → Prop :=
| step_goroutine pre region svc post s :
    step images input
      {| running := pre ++ (region, svc) :: post; shared := s |}
      {| running := pre ++ post;
         shared := goroutine images input region svc s |}.

(** The goroutines run in a given order. *)
Definition fanOut (images : loc) (input : DescribeImagesInput)
    (order : list (string * EC2)) (s : Shared) : Shared :=
  foldl (λ s rs, goroutine images input rs.1 rs.2 s) s order.

(** [MultiImages] when the goroutines enter the critical section in
    [order]; [None] is the panic of a nil receiver. *)
Definition MultiImages_in (order : list (string * EC2))
    (a : loc) (input : DescribeImagesInput) (σ : Heap)
  : option (loc * option multierror_Error * Heap) :=
  match objects σ !! a with
  | None => None
  | Some _ =>
      let '(images, σ1) := make_map σ in
      let s := fanOut images input order {| heap := σ1; multiErrors := None |} in
      Some (images, multiErrors s, heap s)
  end.

(** [a.MultiImages(input)] returns [(images, multiErrors)] and leaves
    the heap [σ']: every goroutine of [a.services.regions] is launched,
    [wg.Wait()] returns once none is left running. *)
Inductive MultiImages (a : loc) (input : DescribeImagesInput) (σ : Heap)
  : loc → option multierror_Error → Heap → Prop :=
| MultiImages_returns recv images σ1 s :
    objects σ !! a = Some recv →
    make_map σ = (images, σ1) →
    rtc (step images input)
      {| running := map_to_list (regions (services recv));
         shared := {| heap := σ1; multiErrors := None |} |}
      {| running := []; shared := s |} →
    MultiImages a input σ images (multiErrors s) (heap s).

End FanOut.

(** ** New *)

Record AwsConfig := {
  Region : string;
  RegionExclude : string;
  AccessKey : string;
  SecretKey : string
}.

(** The pieces of the SDK configuration [New] puts together. *)
Record credentials_Credentials := {
  AccessKeyID : string;
  SecretAccessKey : string;
  SessionToken : string
}.

Definition credentials_NewStaticCredentials (id secret token : string)
  : credentials_Credentials :=
  {| AccessKeyID := id; SecretAccessKey := secret; SessionToken := token |}.

Record http_Transport := {
  TLSHandshakeTimeout : Z
}.

Record http_Client := {
  Transport : http_Transport;
  Timeout : Z
}.

Record aws_Config := {
  Credentials : credentials_Credentials;
  HTTPClient : http_Client
}.

(** [time.Second], in nanoseconds. *)
Definition time_Second : Z := 1000000000.

Section Construction.

(** [parseRegions] and [newMultiRegion] are defined elsewhere in the
    package; [New] is taken over any two such functions. *)
Variable parseRegions : string → string → list string.
Variable newMultiRegion : aws_Config → list string → multiRegion.

(** [New(conf)], for the configuration [conf] points to: the returned
    pointer and error, and the heap it leaves. *)
Definition New (conf : AwsConfig) (σ : Heap) : option loc * option error * Heap :=
  let checkCfg := "Please check your configuration" in
  if decide (Region conf = "") then
    (None, Some (errors_New ("AWS Region is not set. " +:+ checkCfg)), σ)
  else if decide (AccessKey conf = "") then
    (None, Some (errors_New ("AWS Access Key is not set. " +:+ checkCfg)), σ)
  else if decide (SecretKey conf = "") then
    (None, Some (errors_New ("AWS Secret Key is not set. " +:+ checkCfg)), σ)
  else
    let timeout := (time_Second * 30)%Z in
    let client :=
      {| Transport := {| TLSHandshakeTimeout := timeout |}; Timeout := timeout |} in
    let creds := credentials_NewStaticCredentials (AccessKey conf) (SecretKey conf) "" in
    let awsCfg := {| Credentials := creds; HTTPClient := client |} in
    let m := newMultiRegion awsCfg (parseRegions (Region conf) (RegionExclude conf)) in
    let '(images, σ1) := make_map σ in
    let a := fresh (dom (objects σ1)) in
    (Some a, None,
     {| objects := <[a := {| services := m; images := images |}]> (objects σ1);
        maps := maps σ1 |}).

End Construction.

(** ** Help *)

Definition nl : string := String "010"%char "".
Definition tab : string := String "009"%char "".
Definition dq : string := String "034"%char "".

(** The raw string [global] of [Help]. *)
Definition global : string :=
  nl +:+
  "  -access-key      " +:+ dq +:+ "..." +:+ dq +:+
  "       AWS Access Key (env: IMAGES_AWS_ACCESS_KEY)" +:+ nl +:+
  "  -secret-key      " +:+ dq +:+ "..." +:+ dq +:+
  "       AWS Secret Key (env: IMAGES_AWS_SECRET_KEY)" +:+ nl +:+
  "  -region          " +:+ dq +:+ "..." +:+ dq +:+
  "       AWS Region (env: IMAGES_AWS_REGION)" +:+ nl +:+
  "  -region-exclude  " +:+ dq +:+ "..." +:+ dq +:+
  "       AWS Region to be excluded (env: IMAGES_AWS_REGION_EXCLUDE)" +:+ nl.

(** The raw string of the [list] case. *)
Definition listHelp : string :=
  "Usage: images list --provider aws [options]" +:+ nl +:+
  nl +:+
  " List AMI properties." +:+ nl +:+
  nl +:+
  "Options:" +:+ nl +:+
  tab.

(** What [Help] reads of the flag sets built by [newModifyFlags],
    [newDeleteFlags] and [newCopyFlags]. *)
Record flagSet := {
  helpMsg : string
}.

Section HelpText.

(** The three constructors are defined with their commands, outside
    aws.go; [Help] is taken over whatever they return. *)
Variable newModifyFlags newDeleteFlags newCopyFlags : flagSet.

(** [a.Help(command)]; the receiver is not consulted. *)
Definition Help (command : string) : string :=
  if decide (command = "modify") then helpMsg newModifyFlags +:+ global
  else if decide (command = "delete") then helpMsg newDeleteFlags +:+ global
  else if decide (command = "list") then listHelp +:+ global
  else if decide (command = "copy") then helpMsg newCopyFlags +:+ global
  else "no help found for command " +:+ command.

End HelpText.

(** ** Vocabulary of the statements *)

(** The error of the request a goroutine makes, [None] when it succeeds. *)
Definition failure (input : DescribeImagesInput) (rs : string * EC2) : option error :=
  (DescribeImages rs.2 input).2.

(** The images the request answers with. *)
Definition answer (input : DescribeImagesInput) (svc : EC2) : list Image :=
  Images (DescribeImages svc input).1.

(** The goroutine of the pair [rs] gets an error back. *)
Definition fails (input : DescribeImagesInput) (rs : string * EC2) : Prop :=
  is_Some (failure input rs).

#[global] Instance fails_dec input rs : Decision (fails input rs).
Proof. unfold fails. apply _. Defined.

(** What the goroutine of a region stores under the region's key: the
    answer, sorted when it has more than one image; nothing when the
    request fails. *)
Definition stored (sort_Sort : Less → list Image → list Image)
    (input : DescribeImagesInput) (svc : EC2) : option (list Image) :=
  match (DescribeImages svc input).2 with
  | None => Some (sortImages sort_Sort (answer input svc))
  | Some _ => None
  end.

(** [multiErrors] after the errors [errs] were appended one at a time. *)
Definition appended (acc : option multierror_Error) (errs : list error)
  : option multierror_Error :=
  foldl (λ acc e, Some (multierror_Append acc [e])) acc errs.

(** [s] ends with [suffix]. *)
Definition ends_with (s suffix : string) : Prop :=
  ∃ body, s = body +:+ suffix.

(** [s] has [part] somewhere inside. *)
Definition mentions (s part : string) : Prop :=
  ∃ before after, s = before +:+ part +:+ after.

Fixpoint has_char (ch : ascii) (s : string) : bool :=
  match s with
  | EmptyString => false
  | String c rest => if decide (c = ch) then true else has_char ch rest
  end.

(** Oldest first: [x] may come before [y] in a list ordered by creation
    timestamp. *)
Definition oldest_first (x y : Image) : Prop :=
  (CreationDate x ≤ CreationDate y)%Z.

(** ** A small account to run the model on *)

Definition image (id : string) (created : Z) : Image :=
  {| ImageId := id; Name := id; OwnerId := "self"; CreationDate := created |}.

(** A region whose requests succeed with [imgs], and one whose requests
    fail with [e]. *)
Definition answering (imgs : list Image) : EC2 :=
  {| DescribeImages := λ _, ({| Images := imgs |}, None) |}.

Definition refusing (e : error) : EC2 :=
  {| DescribeImages := λ _, ({| Images := [] |}, Some e) |}.

Definition east : EC2 := answering [image "ami-c" 3; image "ami-a" 1; image "ami-b" 2].
Definition south : EC2 := answering [image "ami-z" 9].
Definition west : EC2 := refusing (awserr_New "RequestLimitExceeded" "slow down").

Definition healthy : gmap string EC2 :=
  <["us-east-1" := east]> (<["ap-south-1" := south]> ∅).

Definition degraded : gmap string EC2 :=
  <["eu-west-1" := west]> healthy.

Definition account (regs : gmap string EC2) : AwsImages :=
  {| services := {| regions := regs |}; images := 2%positive |}.

(** A heap with one [AwsImages] at address 1, its map at address 2. *)
Definition heap_of (regs : gmap string EC2) : Heap :=
  {| objects := {[ 1%positive := account regs ]};
     maps := {[ 2%positive := ∅ ]} |}.

Definition owned : DescribeImagesInput :=
  {| ImageIds := []; Owners := ["self"]; ExecutableUsers := [] |}.

Definition no_flags : flagSet := {| helpMsg := "Usage: images" |}.

(** Stand-ins for [parseRegions] and [newMultiRegion]: the region
    string as the only region, and a handle that answers nothing for each
    name. *)
Definition single_region (region exclude : string) : list string := [region].

Definition empty_handles (cfg : aws_Config) (names : list string) : multiRegion :=
  {| regions := list_to_map ((λ name, (name, answering [])) <$> names) |}.

Definition no_access_key : AwsConfig :=
  {| Region := "us-east-1"; RegionExclude := ""; AccessKey := "";
     SecretKey := "secret" |}.

Definition complete : AwsConfig :=
  {| Region := "us-east-1"; RegionExclude := ""; AccessKey := "key";
     SecretKey := "secret" |}.

Definition empty_heap : Heap := {| objects := ∅; maps := ∅ |}.

(** ** ownerImages *)

Section OwnerImages.

Variable sort_Sort : Less → list Image → list Image.

(** [stringSlice] is defined elsewhere in the package; it turns its
    arguments into the slice the SDK wants. *)
Variable stringSlice : list string → list string.

(** [&ec2.DescribeImagesInput{Owners: stringSlice("self")}]: the other
    fields are left at their zero value. *)
Definition ownerImages_input : DescribeImagesInput :=
  {| ImageIds := []; Owners := stringSlice ["self"]; ExecutableUsers := [] |}.

(** [a.ownerImages()] *)
Definition ownerImages (a : loc) (σ : Heap)
  : loc → option multierror_Error → Heap → Prop :=
  MultiImages sort_Sort a ownerImages_input σ.

(** [ownerImages] when the goroutines run in [order]. *)
Definition ownerImages_in (order : list (string * EC2)) (a : loc) (σ : Heap)
  : option (loc * option multierror_Error * Heap) :=
  MultiImages_in sort_Sort order a ownerImages_input σ.

End OwnerImages.

(** ** More accounts to run the model on *)

Definition north : EC2 := refusing (errors_New "timeout").

(** Two regions out of four fail. *)
Definition outage : gmap string EC2 :=
  <["eu-north-1" := north]> degraded.

(** Both regions fail. *)
Definition blackout : gmap string EC2 :=
  <["eu-west-1" := west]> (<["eu-north-1" := north]> ∅).

(** A handle that only answers requests for the caller's own images. *)
Definition own_only (imgs : list Image) : EC2 :=
  {| DescribeImages := λ input,
       if decide (Owners input = ["self"])
       then ({| Images := imgs |}, None)
       else ({| Images := [] |}, Some (awserr_New "InvalidUserID.Malformed" "owner")) |}.

Definition private : gmap string EC2 :=
  <["us-east-1" := own_only [image "ami-c" 3; image "ami-a" 1]]> ∅.

Definition nothing_set : AwsConfig :=
  {| Region := ""; RegionExclude := ""; AccessKey := ""; SecretKey := "" |}.

(** What an aggregated error counts for: its constituents, none for nil. *)
Definition constituents (e : option multierror_Error) : list error :=
  match e with
  | Some agg => Errors agg
  | None => []
  end.

(** Case analysis on a lookup in a registry written out with inserts. *)
Ltac registry_cases H :=
  unfold degraded, healthy in H;
  repeat (apply lookup_insert_Some in H as [[<- <-]|[_ H]]; [|]);
  try (rewrite lookup_empty in H; discriminate H).

(** ** Sorting *)

Lemma byTime_strict_weak : strict_weak byTime_Less.
Proof.
  split; unfold byTime_Less.
  - intros x. apply Z.ltb_irrefl.
  - intros x y z Hxy Hyz. apply Z.ltb_lt. apply Z.ltb_lt in Hxy, Hyz. lia.
  - intros x y z Hxy Hyx Hyz Hzy.
    apply Z.ltb_ge in Hxy, Hyx, Hyz, Hzy. split; apply Z.ltb_ge; lia.
Qed.

Lemma ascending_byTime x y :
  ascending byTime_Less x y ↔ (CreationDate x ≤ CreationDate y)%Z.
Proof. unfold ascending, byTime_Less. apply Z.ltb_ge. Qed.

Lemma strict_weak_asym less x y :
  strict_weak less → less x y = true → less y x = false.
Proof.
  intros Hsw Hxy. destruct (less y x) eqn:Hyx; [|done].
  rewrite <- (less_irrefl less Hsw x). symmetry.
  by apply (less_trans less Hsw x y x).
Qed.

Lemma insert_sorted_perm less x data :
  insert_sorted less x data ≡ₚ x :: data.
Proof.
  induction data as [|y rest IH]; simpl; [done|].
  destruct (less x y); [done|]. rewrite IH. apply Permutation_swap.
Qed.

Lemma insert_sorted_hd less x y data :
  ascending less y x → HdRel (ascending less) y data →
  HdRel (ascending less) y (insert_sorted less x data).
Proof.
  intros Hyx Hhd. destruct data as [|z rest]; simpl.
  - by constructor.
  - destruct (less x z); constructor; [done|]. by inversion Hhd.
Qed.

Lemma insert_sorted_sorted less x data :
  strict_weak less → Sorted (ascending less) data →
  Sorted (ascending less) (insert_sorted less x data).
Proof.
  intros Hsw. induction 1 as [|y rest Hsorted IH Hhd]; simpl.
  - by repeat constructor.
  - destruct (less x y) eqn:Hxy.
    + constructor; [by constructor|]. constructor.
      by apply strict_weak_asym.
    + constructor; [done|]. by apply insert_sorted_hd.
Qed.

Lemma insertion_sort_contract : sort_contract insertion_sort.
Proof.
  intros less data Hsw. unfold insertion_sort.
  induction data as [|x data [IHp IHs]]; simpl.
  - split; [done | constructor].
  - split.
    + rewrite insert_sorted_perm. by f_equiv.
    + by apply insert_sorted_sorted.
Qed.

(** ** Runs of the goroutines *)

Section Runs.

Variable sort_Sort : Less → list Image → list Image.
Variable images : loc.
Variable input : DescribeImagesInput.

Local Abbreviation step_in := (step sort_Sort images input).
Local Abbreviation run := (fanOut sort_Sort images input).

Lemma fanOut_cons rs order s :
  run (rs :: order) s = run order (goroutine sort_Sort images input rs.1 rs.2 s).
Proof. done. Qed.

(** As long as a goroutine is running, one of them can take its step. *)
Lemma step_progress rs rest s :
  ∃ p, step_in {| running := rs :: rest; shared := s |} p.
Proof.
  destruct rs as [r svc]. eexists.
  apply (step_goroutine sort_Sort images input [] r svc rest s).
Qed.


(** The runs that end with no goroutine left are the orders in which the
    launched goroutines can be lined up. *)
Lemma run_order_1 p q :
  rtc step_in p q → running q = [] →
  ∃ order, order ≡ₚ running p ∧ shared q = run order (shared p).
Proof.
  induction 1 as [p|p p' q Hstep _ IH]; intros Hq.
  - exists []. by rewrite Hq.
  - destruct (IH Hq) as (order & Hperm & Hsh).
    destruct Hstep as [pre r svc post s]; simpl in *.
    exists ((r, svc) :: order). split.
    + rewrite Hperm. apply Permutation_middle.
    + done.
Qed.

Lemma run_order_2 order pending s :
  order ≡ₚ pending →
  rtc step_in {| running := pending; shared := s |}
           {| running := []; shared := run order s |}.
Proof.
  revert pending s. induction order as [|[r svc] order IH]; intros pending s Hperm.
  - apply Permutation_nil_l in Hperm. subst pending. apply rtc_refl.
  - assert ((r, svc) ∈ pending) as Hin by (rewrite <- Hperm; left).
    apply list_elem_of_split in Hin as (pre & post & ->).
    apply Permutation_cons_app_inv in Hperm.
    eapply rtc_l; [apply step_goroutine|]. by apply IH.
Qed.

End Runs.

(** ** What the goroutines leave behind *)

Lemma appended_Some e errs :
  appended (Some e) errs = Some {| Errors := Errors e ++ errs |}.
Proof.
  revert e. induction errs as [|x errs IH]; intros e; simpl.
  - rewrite app_nil_r. by destruct e.
  - rewrite IH. simpl. by rewrite <- app_assoc.
Qed.

Lemma appended_None errs :
  appended None errs = match errs with [] => None | _ => Some {| Errors := errs |} end.
Proof. destruct errs as [|x errs]; simpl; [done|]. by rewrite appended_Some. Qed.

Lemma appended_None_iff errs : appended None errs = None ↔ errs = [].
Proof. rewrite appended_None. by destruct errs. Qed.

Section FanIn.

Variable sort_Sort : Less → list Image → list Image.
Variable input : DescribeImagesInput.

Lemma goroutine_failure images region svc s e :
  failure input (region, svc) = Some e →
  goroutine sort_Sort images input region svc s =
    {| heap := heap s; multiErrors := Some (multierror_Append (multiErrors s) [e]) |}.
Proof.
  unfold failure, goroutine. simpl.
  destruct (DescribeImages svc input) as [resp err]. simpl. by intros ->.
Qed.

Lemma goroutine_success images region svc s :
  failure input (region, svc) = None →
  goroutine sort_Sort images input region svc s =
    {| heap := map_assign images region (sortImages sort_Sort (answer input svc)) (heap s);
       multiErrors := multiErrors s |}.
Proof.
  unfold failure, answer, goroutine. simpl.
  destruct (DescribeImages svc input) as [resp err]. simpl. by intros ->.
Qed.

Lemma stored_failure region svc e :
  failure input (region, svc) = Some e → stored sort_Sort input svc = None.
Proof. unfold stored, failure. simpl. by intros ->. Qed.

Lemma stored_success region svc :
  failure input (region, svc) = None →
  stored sort_Sort input svc = Some (sortImages sort_Sort (answer input svc)).
Proof. unfold stored, failure. simpl. by intros ->. Qed.

(** The errors are appended in the order the goroutines ran. *)
Lemma fanOut_multiErrors images order s :
  multiErrors (fanOut sort_Sort images input order s) =
  appended (multiErrors s) (omap (failure input) order).
Proof.
  revert s. induction order as [|[r svc] order IH]; intros s; [done|].
  rewrite fanOut_cons, IH. simpl.
  destruct (failure input (r, svc)) as [e|] eqn:Hf.
  - by rewrite (goroutine_failure _ _ _ _ e).
  - by rewrite goroutine_success.
Qed.

(** No goroutine touches an [AwsImages] object. *)
Lemma fanOut_objects images order s :
  objects (heap (fanOut sort_Sort images input order s)) = objects (heap s).
Proof.
  revert s. induction order as [|[r svc] order IH]; intros s; [done|].
  rewrite fanOut_cons, IH. simpl.
  destruct (failure input (r, svc)) as [e|] eqn:Hf.
  - by rewrite (goroutine_failure _ _ _ _ e).
  - by rewrite goroutine_success.
Qed.

(** The map [images] after the goroutines ran in [order], from [m0]:
    the only map object that changes, and only at the keys of the
    goroutines whose request succeeded. *)
Lemma fanOut_maps images order s m0 :
  maps (heap s) !! images = Some m0 →
  NoDup order.*1 →
  ∃ m, maps (heap (fanOut sort_Sort images input order s))
         = <[images := m]> (maps (heap s)) ∧
       ∀ r, m !! r =
            match (list_to_map order : gmap string EC2) !! r ≫= stored sort_Sort input with
            | Some imgs => Some imgs
            | None => m0 !! r
            end.
Proof.
  revert s m0. induction order as [|[r0 svc] order IH]; intros s m0 Hm0 Hnd.
  - exists m0. split; [by rewrite insert_id|]. intros r. simpl. by rewrite lookup_empty.
  - apply NoDup_cons in Hnd as [Hr0 Hnd]. rewrite fanOut_cons. simpl.
    assert ((list_to_map order : gmap string EC2) !! r0 = None) as Hnone
      by by apply not_elem_of_list_to_map_1.
    destruct (failure input (r0, svc)) as [e|] eqn:Hf.
    + rewrite (goroutine_failure _ _ _ _ e) by done.
      destruct (IH {| heap := heap s;
                      multiErrors := Some (multierror_Append (multiErrors s) [e]) |}
                   m0 Hm0 Hnd) as (m & Hmaps & Hm).
      exists m. split; [done|]. intros r. rewrite Hm.
      destruct (decide (r0 = r)) as [->|Hne].
      * rewrite Hnone, lookup_insert_eq. simpl.
        by rewrite (stored_failure _ _ _ Hf).
      * by rewrite (lookup_insert_ne _ r0 r) by done.
    + rewrite goroutine_success by done.
      set (imgs := sortImages sort_Sort (answer input svc)).
      destruct (IH {| heap := map_assign images r0 imgs (heap s);
                      multiErrors := multiErrors s |}
                   (<[r0 := imgs]> m0)) as (m & Hmaps & Hm); [|done|].
      { simpl. by rewrite lookup_alter_eq, Hm0. }
      exists m. split.
      * rewrite Hmaps. simpl. by rewrite insert_alter_eq.
      * intros r. rewrite Hm.
        destruct (decide (r0 = r)) as [->|Hne].
        -- rewrite Hnone, !lookup_insert_eq. simpl.
           by rewrite (stored_success _ _ Hf).
        -- by rewrite !(lookup_insert_ne _ r0 r) by done.
Qed.

End FanIn.

(** ** The outcome of MultiImages *)

Section Outcome.

Variable sort_Sort : Less → list Image → list Image.
Variable input : DescribeImagesInput.

Lemma fails_None rs : ¬ fails input rs ↔ failure input rs = None.
Proof. unfold fails. by rewrite eq_None_not_Some. Qed.

Lemma stored_None svc region :
  stored sort_Sort input svc = None ↔ fails input (region, svc).
Proof.
  unfold stored, fails, failure. simpl.
  destruct (DescribeImages svc input).2 as [e|]; split; intros H; done.
Qed.

(** Every region either stores a list or adds an error, never both. *)
Lemma size_stored_fails (regs : gmap string EC2) :
  size (omap (stored sort_Sort input) regs) + size (filter (fails input) regs)
  = size regs.
Proof.
  induction regs as [|r svc regs Hr IH] using map_ind.
  - by rewrite omap_empty, map_filter_empty, !map_size_empty.
  - rewrite map_size_insert_None by done.
    assert (omap (stored sort_Sort input) regs !! r = None) as Ho
      by by rewrite lookup_omap, Hr.
    assert (filter (fails input) regs !! r = None) as Hfl
      by (apply map_lookup_filter_None; by left).
    destruct (stored sort_Sort input svc) as [imgs|] eqn:Hst.
    + rewrite (omap_insert_Some _ _ _ _ imgs) by done.
      rewrite map_size_insert_None by done.
      rewrite map_filter_insert_not'; [lia| |by rewrite Hr].
      rewrite <- stored_None. by rewrite Hst.
    + rewrite omap_insert_None, delete_id by done.
      rewrite map_filter_insert_True by by apply stored_None.
      rewrite map_size_insert_None by done. lia.
Qed.

(** The number of errors appended is the number of failing regions,
    whatever the order of the goroutines. *)
Lemma length_failures order (regs : gmap string EC2) :
  order ≡ₚ map_to_list regs →
  length (omap (failure input) order) = size (filter (fails input) regs).
Proof.
  intros ->. induction regs as [|r svc regs Hr IH] using map_ind.
  - by rewrite map_to_list_empty, map_filter_empty, map_size_empty.
  - rewrite map_to_list_insert by done. simpl.
    assert (filter (fails input) regs !! r = None) as Hfl
      by (apply map_lookup_filter_None; by left).
    destruct (failure input (r, svc)) as [e|] eqn:Hf; simpl.
    + rewrite map_filter_insert_True by (by exists e).
      rewrite map_size_insert_None by done. f_equal. exact IH.
    + rewrite map_filter_insert_not'; [exact IH| |by rewrite Hr].
      by apply fails_None.
Qed.

(** What a call returns and the heap it leaves, in terms of the order
    [order] its goroutines ran in. *)
Lemma MultiImages_inv a σ l e σ' :
  MultiImages sort_Sort a input σ l e σ' →
  ∃ recv order,
    objects σ !! a = Some recv ∧
    order ≡ₚ map_to_list (regions (services recv)) ∧
    l = fresh (dom (maps σ)) ∧
    e = appended None (omap (failure input) order) ∧
    objects σ' = objects σ ∧
    maps σ' = <[l := omap (stored sort_Sort input) (regions (services recv))]> (maps σ).
Proof.
  intros [recv images σ1 s Hrecv Hmake Hrun].
  unfold make_map in Hmake. injection Hmake as <- <-.
  apply run_order_1 in Hrun as (order & Hperm & Hs); [|done]. simpl in *.
  exists recv, order. subst s.
  rewrite fanOut_multiErrors, fanOut_objects. simpl.
  repeat split; try done.
  destruct (fanOut_maps sort_Sort input (fresh (dom (maps σ))) order
              {| heap := {| objects := objects σ;
                            maps := <[fresh (dom (maps σ)) := ∅]> (maps σ) |};
                 multiErrors := None |} ∅) as (m & -> & Hm).
  - simpl. by rewrite lookup_insert_eq.
  - rewrite Hperm. apply NoDup_fst_map_to_list.
  - simpl. rewrite insert_insert_eq. f_equal. apply map_eq. intros r.
    rewrite Hm, lookup_omap.
    rewrite (list_to_map_proper order (map_to_list (regions (services recv)))),
      list_to_map_to_list; [|rewrite Hperm; apply NoDup_fst_map_to_list|done].
    rewrite lookup_empty.
    by destruct (regions (services recv) !! r ≫= stored sort_Sort input).
Qed.

Lemma MultiImages_in_returns order a σ recv :
  objects σ !! a = Some recv →
  order ≡ₚ map_to_list (regions (services recv)) →
  ∃ l e σ', MultiImages_in sort_Sort order a input σ = Some (l, e, σ') ∧
            MultiImages sort_Sort a input σ l e σ'.
Proof.
  intros Hrecv Hperm. unfold MultiImages_in. rewrite Hrecv.
  destruct (make_map σ) as [images σ1] eqn:Hmake.
  do 3 eexists. split; [done|].
  apply (MultiImages_returns sort_Sort a input σ recv images σ1); [done..|].
  by apply run_order_2.
Qed.

(** Conversely, whatever a call returns is what [MultiImages_in] computes
    for some order of the goroutines. *)
Lemma MultiImages_returns_in a σ l e σ' :
  MultiImages sort_Sort a input σ l e σ' →
  ∃ recv order,
    objects σ !! a = Some recv ∧
    order ≡ₚ map_to_list (regions (services recv)) ∧
    MultiImages_in sort_Sort order a input σ = Some (l, e, σ').
Proof.
  intros [recv images σ1 s Hrecv Hmake Hrun].
  apply run_order_1 in Hrun as (order & Hperm & Hs); [|done]. simpl in *.
  exists recv, order. split; [done|]. split; [done|].
  unfold MultiImages_in. by rewrite Hrecv, Hmake, Hs.
Qed.

(** A call on an allocated receiver returns. *)
Lemma MultiImages_total a σ recv :
  objects σ !! a = Some recv →
  ∃ l e σ', MultiImages sort_Sort a input σ l e σ'.
Proof.
  intros Hrecv.
  destruct (MultiImages_in_returns (map_to_list (regions (services recv))) a σ recv)
    as (l & e & σ' & _ & H); eauto.
Qed.

End Outcome.

(** ** Running the model *)

Example MultiImages_degraded :
  (λ r, (r.1.1, r.1.2, maps r.2 !! r.1.1)) <$>
    MultiImages_in insertion_sort (map_to_list degraded) 1%positive owned (heap_of degraded)
  = Some (3%positive,
          Some {| Errors := [awserr_New "RequestLimitExceeded" "slow down"] |},
          Some (<["us-east-1" := [image "ami-a" 1; image "ami-b" 2; image "ami-c" 3]]>
                  (<["ap-south-1" := [image "ami-z" 9]]> ∅))).
Proof. vm_compute. reflexivity. Qed.

Example Help_list :
  String.length (Help no_flags no_flags no_flags "list") = 78 + 308.
Proof. vm_compute. reflexivity. Qed.

(** ** The fan-out contract *)

Lemma lookup_stored sort_Sort input (regs : gmap string EC2) r svc :
  regs !! r = Some svc →
  omap (stored sort_Sort input) regs !! r = stored sort_Sort input svc.
Proof. intros Hr. by rewrite lookup_omap, Hr. Qed.

Lemma failures_nil input order (regs : gmap string EC2) :
  order ≡ₚ map_to_list regs →
  omap (failure input) order = [] ↔
  ∀ r svc, regs !! r = Some svc → (DescribeImages svc input).2 = None.
Proof.
  intros Hperm. split.
  - intros Hnil r svc Hr.
    destruct (DescribeImages svc input).2 as [e|] eqn:He; [|done].
    assert (e ∈ omap (failure input) order) as Hin.
    { apply list_elem_of_omap. exists (r, svc). split; [|done].
      rewrite Hperm. by apply elem_of_map_to_list. }
    rewrite Hnil in Hin. by apply elem_of_nil in Hin.
  - intros Hall. destruct (omap (failure input) order) as [|e errs] eqn:Ho; [done|].
    assert (e ∈ omap (failure input) order) as Hin by (rewrite Ho; left).
    apply list_elem_of_omap in Hin as ([r svc] & Hin & He).
    rewrite Hperm in Hin. apply elem_of_map_to_list in Hin.
    unfold failure in He. simpl in He. by rewrite (Hall r svc Hin) in He.
Qed.

(** C1. For a registry of at least one region whose requests all
    succeed, [MultiImages] returns, and whatever the interleaving of the
    goroutines the error is nil and the result map has exactly the
    regions of the registry as its keys (so as many keys as regions, and
    at least one). *)
Theorem MultiImages_all_succeed sort_Sort a input σ recv :
  objects σ !! a = Some recv →
  size (regions (services recv)) ≥ 1 →
  (∀ r svc, regions (services recv) !! r = Some svc →
            (DescribeImages svc input).2 = None) →
  (∃ l e σ', MultiImages sort_Sort a input σ l e σ') ∧
  ∀ l e σ', MultiImages sort_Sort a input σ l e σ' →
    e = None ∧
    ∃ m, maps σ' !! l = Some m ∧
         dom m = dom (regions (services recv)) ∧
         size m = size (regions (services recv)) ∧
         m ≠ ∅.
Proof.
  intros Hrecv Hsize Hall. split; [by eapply MultiImages_total|].
  intros l e σ' Hret.
  apply MultiImages_inv in Hret
    as (recv' & order & Hrecv' & Hperm & -> & -> & _ & Hmaps).
  rewrite Hrecv in Hrecv'. injection Hrecv' as <-.
  split.
  - apply appended_None_iff. by rewrite (failures_nil input order _ Hperm).
  - eexists. split; [by rewrite Hmaps, lookup_insert_eq|].
    assert (dom (omap (stored sort_Sort input) (regions (services recv)))
            = dom (regions (services recv))) as Hdom.
    { apply set_eq. intros r. rewrite !elem_of_dom, lookup_omap.
      destruct (regions (services recv) !! r) as [svc|] eqn:Hr; simpl.
      - rewrite (stored_success sort_Sort input r svc) by by apply (Hall r).
        split; by eexists.
      - done. }
    assert (size (omap (stored sort_Sort input) (regions (services recv)))
            = size (regions (services recv))) as Heq
      by by rewrite <- !size_dom, Hdom.
    split; [done|]. split; [done|].
    apply map_size_non_empty_iff. lia.
Qed.

(** C2. When exactly [k ≥ 1] regions fail, every run returns a map
    with [|R| - k] keys, the succeeding regions, and an aggregated error
    of [k] constituents. *)
Theorem MultiImages_some_fail sort_Sort a input σ recv k :
  objects σ !! a = Some recv →
  size (filter (fails input) (regions (services recv))) = k →
  k ≥ 1 →
  (∃ l e σ', MultiImages sort_Sort a input σ l e σ') ∧
  ∀ l e σ', MultiImages sort_Sort a input σ l e σ' →
    ∃ m agg,
      maps σ' !! l = Some m ∧
      size m = size (regions (services recv)) - k ∧
      (∀ r, r ∈ dom m ↔
            ∃ svc, regions (services recv) !! r = Some svc ∧
                   (DescribeImages svc input).2 = None) ∧
      e = Some agg ∧
      length (Errors agg) = k.
Proof.
  intros Hrecv Hk Hpos. split; [by eapply MultiImages_total|].
  intros l e σ' Hret.
  apply MultiImages_inv in Hret
    as (recv' & order & Hrecv' & Hperm & -> & -> & _ & Hmaps).
  rewrite Hrecv in Hrecv'. injection Hrecv' as <-.
  pose proof (length_failures input order _ Hperm) as Hlen. rewrite Hk in Hlen.
  pose proof (size_stored_fails sort_Sort input (regions (services recv))) as Hsize.
  rewrite appended_None.
  destruct (omap (failure input) order) as [|err errs] eqn:Herrs;
    [simpl in Hlen; lia|].
  eexists _, _. split; [by rewrite Hmaps, lookup_insert_eq|].
  split; [lia|]. split; [|done].
  intros r. rewrite elem_of_dom, lookup_omap.
  destruct (regions (services recv) !! r) as [svc|] eqn:Hr; simpl.
  - unfold stored. destruct (DescribeImages svc input).2 as [e'|] eqn:He; split.
    + by intros [? ?].
    + intros (svc' & [= <-] & Hnone). congruence.
    + intros _. by exists svc.
    + intros _. by eexists.
  - split; [by intros [? ?] | by intros (? & ? & _)].
Qed.

Lemma MultiImages_all_succeed_witness :
  (∃ l e σ', MultiImages insertion_sort 1%positive owned (heap_of healthy) l e σ') ∧
  ∀ l e σ', MultiImages insertion_sort 1%positive owned (heap_of healthy) l e σ' →
    e = None ∧
    ∃ m, maps σ' !! l = Some m ∧
         dom m = dom (regions (services (account healthy))) ∧
         size m = size (regions (services (account healthy))) ∧
         m ≠ ∅.
Proof.
  apply (MultiImages_all_succeed insertion_sort 1%positive owned
           (heap_of healthy) (account healthy)).
  - reflexivity.
  - vm_compute. lia.
  - intros r svc Hr. simpl in Hr. registry_cases Hr; reflexivity.
Defined.

Lemma MultiImages_some_fail_witness :
  (∃ l e σ', MultiImages insertion_sort 1%positive owned (heap_of degraded) l e σ') ∧
  ∀ l e σ', MultiImages insertion_sort 1%positive owned (heap_of degraded) l e σ' →
    ∃ m agg,
      maps σ' !! l = Some m ∧
      size m = size (regions (services (account degraded))) - 1 ∧
      (∀ r, r ∈ dom m ↔
            ∃ svc, regions (services (account degraded)) !! r = Some svc ∧
                   (DescribeImages svc owned).2 = None) ∧
      e = Some agg ∧
      length (Errors agg) = 1.
Proof.
  apply (MultiImages_some_fail insertion_sort 1%positive owned
           (heap_of degraded) (account degraded) 1).
  - reflexivity.
  - vm_compute. reflexivity.
  - lia.
Defined.

(** C3. A region whose request succeeds always ends up in the returned
    map, under its own key and with its (sorted) images, whatever the
    other regions answer and whatever the interleaving.  Every region is
    attempted: each one leaves either its key in the map or its error in
    the aggregate.  So when one region succeeds and another fails the
    call returns a non-empty map together with a non-nil error. *)
Theorem MultiImages_success_kept sort_Sort a input σ recv :
  objects σ !! a = Some recv →
  (∃ l e σ', MultiImages sort_Sort a input σ l e σ') ∧
  ∀ l e σ', MultiImages sort_Sort a input σ l e σ' →
    ∃ m, maps σ' !! l = Some m ∧
      (∀ r svc, regions (services recv) !! r = Some svc →
         (DescribeImages svc input).2 = None →
         m !! r = Some (sortImages sort_Sort (Images (DescribeImages svc input).1))) ∧
      (∀ r svc, regions (services recv) !! r = Some svc →
         is_Some (m !! r) ∨
         ∃ err agg, (DescribeImages svc input).2 = Some err ∧
                    e = Some agg ∧ err ∈ Errors agg) ∧
      ((∃ r svc, regions (services recv) !! r = Some svc ∧
                 (DescribeImages svc input).2 = None) →
       (∃ r svc, regions (services recv) !! r = Some svc ∧
                 (DescribeImages svc input).2 ≠ None) →
       m ≠ ∅ ∧ e ≠ None).
Proof.
  intros Hrecv. split; [by eapply MultiImages_total|].
  intros l e σ' Hret.
  apply MultiImages_inv in Hret
    as (recv' & order & Hrecv' & Hperm & -> & -> & _ & Hmaps).
  rewrite Hrecv in Hrecv'. injection Hrecv' as <-.
  eexists. split; [by rewrite Hmaps, lookup_insert_eq|].
  assert (∀ r svc, regions (services recv) !! r = Some svc →
            (DescribeImages svc input).2 = None →
            omap (stored sort_Sort input) (regions (services recv)) !! r
            = Some (sortImages sort_Sort (Images (DescribeImages svc input).1)))
    as Hkept.
  { intros r svc Hr Hok. rewrite (lookup_stored _ _ _ r svc Hr).
    by rewrite (stored_success sort_Sort input r svc). }
  assert (∀ r svc err, regions (services recv) !! r = Some svc →
            (DescribeImages svc input).2 = Some err →
            ∃ agg, appended None (omap (failure input) order) = Some agg ∧
                   err ∈ Errors agg) as Hlost.
  { intros r svc err Hr Herr.
    assert (err ∈ omap (failure input) order) as Hin.
    { apply list_elem_of_omap. exists (r, svc). split; [|done].
      rewrite Hperm. by apply elem_of_map_to_list. }
    rewrite appended_None.
    destruct (omap (failure input) order) as [|x errs]; [by apply elem_of_nil in Hin|].
    by eexists. }
  split; [done|]. split.
  - intros r svc Hr.
    destruct (DescribeImages svc input).2 as [err|] eqn:Hans.
    + right. destruct (Hlost r svc err Hr Hans) as (agg & Hagg & Hin). by exists err, agg.
    + left. rewrite (Hkept r svc Hr Hans). by eexists.
  - intros (r & svc & Hr & Hok) (r' & svc' & Hr' & Hko). split.
    + intros Hempty. specialize (Hkept r svc Hr Hok).
      by rewrite Hempty, lookup_empty in Hkept.
    + destruct (DescribeImages svc' input).2 as [err|] eqn:Hans; [|done].
      destruct (Hlost r' svc' err Hr' Hans) as (agg & -> & _). done.
Qed.

Lemma MultiImages_success_kept_witness :
  (∃ l e σ', MultiImages insertion_sort 1%positive owned (heap_of degraded) l e σ') ∧
  ∀ l e σ', MultiImages insertion_sort 1%positive owned (heap_of degraded) l e σ' →
    ∃ m, maps σ' !! l = Some m ∧
         m !! "us-east-1" = Some [image "ami-a" 1; image "ami-b" 2; image "ami-c" 3] ∧
         m !! "ap-south-1" = Some [image "ami-z" 9] ∧
         m ≠ ∅ ∧ e ≠ None.
Proof.
  destruct (MultiImages_success_kept insertion_sort 1%positive owned
              (heap_of degraded) (account degraded)) as [Hex Hall]; [reflexivity|].
  split; [exact Hex|].
  intros l e σ' Hret.
  destruct (Hall l e σ' Hret) as (m & Hm & Hkept & _ & Hpartial).
  exists m. split; [exact Hm|].
  split; [exact (Hkept "us-east-1" east eq_refl eq_refl)|].
  split; [exact (Hkept "ap-south-1" south eq_refl eq_refl)|].
  apply Hpartial.
  - exists "us-east-1", east. split; reflexivity.
  - exists "eu-west-1", west. split; [reflexivity | discriminate].
Defined.

(** C4. The aggregated error is nil exactly when every region's request
    succeeded; otherwise it is one value whose constituents are the
    errors of the failing regions, each one of them and nothing else. *)
Theorem MultiImages_error_nil_iff sort_Sort a input σ recv :
  objects σ !! a = Some recv →
  (∃ l e σ', MultiImages sort_Sort a input σ l e σ') ∧
  ∀ l e σ', MultiImages sort_Sort a input σ l e σ' →
    (e = None ↔
     ∀ r svc, regions (services recv) !! r = Some svc →
              (DescribeImages svc input).2 = None) ∧
    (∀ agg, e = Some agg →
       Errors agg ≡ₚ omap (failure input) (map_to_list (regions (services recv))) ∧
       ∀ err, err ∈ Errors agg ↔
              ∃ r svc, regions (services recv) !! r = Some svc ∧
                       (DescribeImages svc input).2 = Some err).
Proof.
  intros Hrecv. split; [by eapply MultiImages_total|].
  intros l e σ' Hret.
  apply MultiImages_inv in Hret
    as (recv' & order & Hrecv' & Hperm & -> & -> & _ & Hmaps).
  rewrite Hrecv in Hrecv'. injection Hrecv' as <-.
  split.
  - rewrite appended_None_iff. by apply failures_nil.
  - intros agg Hagg. rewrite appended_None in Hagg.
    assert (Errors agg = omap (failure input) order) as ->.
    { destruct (omap (failure input) order); [done|]. by injection Hagg as <-. }
    split; [by rewrite Hperm|].
    intros err. rewrite list_elem_of_omap. split.
    + intros ([r svc] & Hin & Herr). exists r, svc. split; [|done].
      rewrite Hperm in Hin. by apply elem_of_map_to_list in Hin.
    + intros (r & svc & Hr & Herr). exists (r, svc). split; [|done].
      rewrite Hperm. by apply elem_of_map_to_list.
Qed.

Lemma MultiImages_error_nil_iff_witness :
  (∃ l e σ', MultiImages insertion_sort 1%positive owned (heap_of degraded) l e σ') ∧
  ∀ l e σ', MultiImages insertion_sort 1%positive owned (heap_of degraded) l e σ' →
    e = Some {| Errors := [awserr_New "RequestLimitExceeded" "slow down"] |}.
Proof.
  destruct (MultiImages_error_nil_iff insertion_sort 1%positive owned
              (heap_of degraded) (account degraded)) as [Hex Hall]; [reflexivity|].
  split; [exact Hex|].
  intros l e σ' Hret. destruct (Hall l e σ' Hret) as [Hnil Hsome].
  destruct e as [[errs]|].
  - destruct (Hsome _ eq_refl) as [Hperm _]. simpl in Hperm.
    f_equal. f_equal. apply Permutation_singleton_r. exact Hperm.
  - assert ((DescribeImages west owned).2 = None) as Hwest
      by (apply (proj1 Hnil eq_refl "eu-west-1"); reflexivity).
    discriminate Hwest.
Defined.

(** ** Result ordering *)

#[local] Instance oldest_first_trans : Transitive oldest_first.
Proof. unfold oldest_first. intros x y z. lia. Qed.

Lemma ascending_oldest_first data :
  Sorted (ascending byTime_Less) data → StronglySorted oldest_first data.
Proof.
  intros Hs. apply Sorted_StronglySorted; [apply _|].
  induction Hs as [|x data Hs IH Hhd]; constructor; [done|].
  destruct Hhd as [|y data Hxy]; constructor. by apply ascending_byTime.
Qed.

Lemma sortImages_short sort_Sort imgs :
  length imgs ≤ 1 → sortImages sort_Sort imgs = imgs.
Proof.
  intros Hlen. unfold sortImages.
  destruct (1 <? length imgs) eqn:Hlt; [|done].
  apply Nat.ltb_lt in Hlt. lia.
Qed.

Lemma sortImages_sorted sort_Sort imgs :
  sort_contract sort_Sort →
  sortImages sort_Sort imgs ≡ₚ imgs ∧
  StronglySorted oldest_first (sortImages sort_Sort imgs).
Proof.
  intros Hsort. unfold sortImages.
  destruct (1 <? length imgs) eqn:Hlt.
  - destruct (Hsort byTime_Less imgs byTime_strict_weak) as [Hperm Hsorted].
    split; [done|]. by apply ascending_oldest_first.
  - split; [done|]. apply Nat.ltb_ge in Hlt.
    destruct imgs as [|x [|y imgs]]; simpl in Hlt; [repeat constructor..|lia].
Qed.

(** A list of distinct timestamps has one oldest-first arrangement. *)
Lemma sortImages_three sort_Sort x1 x2 x3 :
  sort_contract sort_Sort →
  (CreationDate x1 < CreationDate x2 < CreationDate x3)%Z →
  sortImages sort_Sort [x3; x1; x2] = [x1; x2; x3].
Proof.
  intros Hsort [H12 H23].
  destruct (sortImages_sorted sort_Sort [x3; x1; x2] Hsort) as [Hperm Hsorted].
  apply (StronglySorted_unique_strong oldest_first); [|done| |].
  - intros a b Ha Hb Hab Hba. rewrite Hperm in Ha.
    unfold oldest_first in Hab, Hba.
    set_unfold; destruct Ha as [->|[->|[->|[]]]], Hb as [->|[->|[->|[]]]];
      first [done | lia].
  - unfold oldest_first. repeat constructor; lia.
  - rewrite Hperm. by rewrite (Permutation_swap x1 x3 [x2]), (Permutation_swap x2 x3 []).
Qed.

(** C5. The list stored for a succeeding region holds the images of the
    answer.  With zero or one image it is the answer itself, whatever
    function stands for [sort.Sort] (so the sort has no part in it); with
    more, under the contract of [sort.Sort], it is the answer rearranged
    oldest first, and [[t3; t1; t2]] becomes [[t1; t2; t3]]. *)
Theorem MultiImages_sorted sort_Sort a input σ recv r svc :
  objects σ !! a = Some recv →
  regions (services recv) !! r = Some svc →
  (DescribeImages svc input).2 = None →
  (∃ l e σ', MultiImages sort_Sort a input σ l e σ') ∧
  ∀ l e σ', MultiImages sort_Sort a input σ l e σ' →
    ∃ m imgs,
      maps σ' !! l = Some m ∧ m !! r = Some imgs ∧
      (length (Images (DescribeImages svc input).1) ≤ 1 →
       imgs = Images (DescribeImages svc input).1) ∧
      (sort_contract sort_Sort →
       1 < length (Images (DescribeImages svc input).1) →
       imgs ≡ₚ Images (DescribeImages svc input).1 ∧
       StronglySorted oldest_first imgs) ∧
      (sort_contract sort_Sort →
       ∀ x1 x2 x3,
         (CreationDate x1 < CreationDate x2 < CreationDate x3)%Z →
         Images (DescribeImages svc input).1 = [x3; x1; x2] →
         imgs = [x1; x2; x3]).
Proof.
  intros Hrecv Hr Hok. split; [by eapply MultiImages_total|].
  intros l e σ' Hret.
  apply MultiImages_inv in Hret
    as (recv' & order & Hrecv' & Hperm & -> & -> & _ & Hmaps).
  rewrite Hrecv in Hrecv'. injection Hrecv' as <-.
  exists (omap (stored sort_Sort input) (regions (services recv))),
         (sortImages sort_Sort (Images (DescribeImages svc input).1)).
  split; [by rewrite Hmaps, lookup_insert_eq|].
  split.
  { rewrite (lookup_stored _ _ _ r svc Hr).
    by rewrite (stored_success sort_Sort input r svc). }
  split; [apply sortImages_short|].
  split.
  - intros Hsort _. by apply sortImages_sorted.
  - intros Hsort x1 x2 x3 Ht ->. by apply sortImages_three.
Qed.

Lemma MultiImages_sorted_witness :
  (∃ l e σ', MultiImages insertion_sort 1%positive owned (heap_of degraded) l e σ') ∧
  ∀ l e σ', MultiImages insertion_sort 1%positive owned (heap_of degraded) l e σ' →
    ∃ m imgs,
      maps σ' !! l = Some m ∧ m !! "us-east-1" = Some imgs ∧
      imgs ≡ₚ [image "ami-c" 3; image "ami-a" 1; image "ami-b" 2] ∧
      StronglySorted oldest_first imgs ∧
      imgs = [image "ami-a" 1; image "ami-b" 2; image "ami-c" 3].
Proof.
  destruct (MultiImages_sorted insertion_sort 1%positive owned
              (heap_of degraded) (account degraded) "us-east-1" east)
    as [Hex Hall]; [reflexivity..|].
  split; [exact Hex|].
  intros l e σ' Hret.
  destruct (Hall l e σ' Hret) as (m & imgs & Hm & Himgs & _ & Hsorted & Hthree).
  exists m, imgs. split; [exact Hm|]. split; [exact Himgs|].
  destruct (Hsorted insertion_sort_contract) as [Hperm Hstrong]; [simpl; lia|].
  split; [exact Hperm|]. split; [exact Hstrong|].
  apply (Hthree insertion_sort_contract); [simpl; lia | reflexivity].
Defined.

(** ** Error accumulation *)

(** C7. A goroutine whose request fails appends the error it got,
    unchanged, after the errors already gathered, and writes nothing
    else; the region it was launched for does not enter the shared state
    (any other region name gives the same state).  So the aggregate a call
    returns is the list of the errors the failing handles answered, in
    the order their goroutines ran, with no region beside them. *)
Theorem goroutine_appends_error sort_Sort images input region svc s err :
  (DescribeImages svc input).2 = Some err →
  goroutine sort_Sort images input region svc s =
    {| heap := heap s;
       multiErrors :=
         Some {| Errors := match multiErrors s with
                           | Some agg => Errors agg ++ [err]
                           | None => [err]
                           end |} |} ∧
  (∀ region', goroutine sort_Sort images input region' svc s =
              goroutine sort_Sort images input region svc s) ∧
  ∀ a σ recv l e σ',
    objects σ !! a = Some recv →
    MultiImages sort_Sort a input σ l e σ' →
    ∃ order, order ≡ₚ map_to_list (regions (services recv)) ∧
      e = match omap (λ rs : string * EC2, (DescribeImages rs.2 input).2) order with
          | [] => None
          | errs => Some {| Errors := errs |}
          end.
Proof.
  intros Herr. split; [|split].
  - rewrite (goroutine_failure sort_Sort input images region svc s err) by done.
    unfold multierror_Append. by destruct (multiErrors s).
  - intros region'.
    rewrite (goroutine_failure sort_Sort input images region svc s err) by done.
    by rewrite (goroutine_failure sort_Sort input images region' svc s err).
  - intros a σ recv l e σ' Hrecv Hret.
    apply MultiImages_inv in Hret
      as (recv' & order & Hrecv' & Hperm & -> & -> & _ & Hmaps).
    rewrite Hrecv in Hrecv'. injection Hrecv' as <-.
    exists order. split; [done|]. rewrite appended_None. unfold failure.
    by destruct (omap _ order).
Qed.

Lemma goroutine_appends_error_witness :
  goroutine insertion_sort 3%positive owned "eu-west-1" west
    {| heap := heap_of degraded;
       multiErrors := Some {| Errors := [errors_New "timeout"] |} |}
  = {| heap := heap_of degraded;
       multiErrors :=
         Some {| Errors := [errors_New "timeout";
                            awserr_New "RequestLimitExceeded" "slow down"] |} |}.
Proof.
  exact (proj1 (goroutine_appends_error insertion_sort 3%positive owned
                  "eu-west-1" west
                  {| heap := heap_of degraded;
                     multiErrors := Some {| Errors := [errors_New "timeout"] |} |}
                  (awserr_New "RequestLimitExceeded" "slow down") eq_refl)).
Defined.

(** ** Frame *)

(** C8. The map a call returns is a map object that did not exist
    before the call: it is not the receiver's own map nor the map of an
    earlier call, and a later call does not return or touch it.  The call
    leaves every [AwsImages] object, the receiver among them, and every
    map that existed before as they were; what it stores is read off the
    region/handle pairs alone. *)
Theorem MultiImages_fresh_map sort_Sort a input σ recv :
  objects σ !! a = Some recv →
  (∃ l e σ', MultiImages sort_Sort a input σ l e σ') ∧
  ∀ l e σ', MultiImages sort_Sort a input σ l e σ' →
    (l ∉ dom (maps σ)) ∧
    (is_Some (maps σ !! images recv) → l ≠ images recv) ∧
    objects σ' = objects σ ∧
    objects σ' !! a = Some recv ∧
    (∀ l', l' ≠ l → maps σ' !! l' = maps σ !! l') ∧
    (∃ m, maps σ' !! l = Some m ∧
          ∀ r, m !! r = regions (services recv) !! r ≫= stored sort_Sort input) ∧
    ∀ input2 l2 e2 σ2, MultiImages sort_Sort a input2 σ' l2 e2 σ2 →
      l2 ≠ l ∧ maps σ2 !! l = maps σ' !! l ∧ objects σ2 !! a = Some recv.
Proof.
  intros Hrecv. split; [by eapply MultiImages_total|].
  intros l e σ' Hret.
  apply MultiImages_inv in Hret
    as (recv' & order & Hrecv' & Hperm & Hl & -> & Hobjs & Hmaps).
  rewrite Hrecv in Hrecv'. injection Hrecv' as <-.
  assert (l ∉ dom (maps σ)) as Hfresh by (rewrite Hl; apply is_fresh).
  split; [done|]. split.
  { intros Hown Heq. rewrite <- Heq in Hown. by apply Hfresh, elem_of_dom. }
  split; [done|]. split; [by rewrite Hobjs|]. split.
  { intros l' Hne. by rewrite Hmaps, lookup_insert_ne. }
  split.
  { eexists. split; [by rewrite Hmaps, lookup_insert_eq|].
    intros r. apply lookup_omap. }
  intros input2 l2 e2 σ2 Hret2.
  apply MultiImages_inv in Hret2
    as (recv2 & order2 & Hrecv2 & _ & Hl2 & _ & Hobjs2 & Hmaps2).
  assert (l2 ≠ l) as Hne.
  { intros ->. apply (is_fresh (dom (maps σ'))). rewrite <- Hl2.
    apply elem_of_dom. rewrite Hmaps, lookup_insert_eq. by eexists. }
  split; [done|]. split.
  - by rewrite Hmaps2, lookup_insert_ne.
  - by rewrite Hobjs2, Hobjs.
Qed.

Lemma MultiImages_fresh_map_witness :
  (∃ l e σ', MultiImages insertion_sort 1%positive owned (heap_of degraded) l e σ') ∧
  ∀ l e σ', MultiImages insertion_sort 1%positive owned (heap_of degraded) l e σ' →
    l ≠ 2%positive ∧
    maps σ' !! 2%positive = Some ∅ ∧
    objects σ' !! 1%positive = Some (account degraded).
Proof.
  destruct (MultiImages_fresh_map insertion_sort 1%positive owned
              (heap_of degraded) (account degraded)) as [Hex Hall]; [reflexivity|].
  split; [exact Hex|].
  intros l e σ' Hret.
  destruct (Hall l e σ' Hret) as (_ & Hown & _ & Hrecv & Hframe & _).
  assert (l ≠ 2%positive) as Hne by (apply Hown; by eexists).
  split; [exact Hne|]. split; [|exact Hrecv].
  etrans; [apply (Hframe 2%positive); congruence | reflexivity].
Defined.

(** ** New *)

Section NewCases.

Variable parseRegions : string → string → list string.
Variable newMultiRegion : aws_Config → list string → multiRegion.
Variable conf : AwsConfig.
Variable σ : Heap.

Lemma New_no_region :
  Region conf = "" →
  New parseRegions newMultiRegion conf σ =
    (None, Some (errors_New "AWS Region is not set. Please check your configuration"), σ).
Proof. intros H. unfold New. by destruct (decide (Region conf = "")). Qed.

Lemma New_no_access_key :
  Region conf ≠ "" → AccessKey conf = "" →
  New parseRegions newMultiRegion conf σ =
    (None,
     Some (errors_New "AWS Access Key is not set. Please check your configuration"), σ).
Proof.
  intros H1 H2. unfold New.
  destruct (decide (Region conf = "")); [done|].
  by destruct (decide (AccessKey conf = "")).
Qed.

Lemma New_no_secret_key :
  Region conf ≠ "" → AccessKey conf ≠ "" → SecretKey conf = "" →
  New parseRegions newMultiRegion conf σ =
    (None,
     Some (errors_New "AWS Secret Key is not set. Please check your configuration"), σ).
Proof.
  intros H1 H2 H3. unfold New.
  destruct (decide (Region conf = "")); [done|].
  destruct (decide (AccessKey conf = "")); [done|].
  by destruct (decide (SecretKey conf = "")).
Qed.

Lemma New_complete :
  Region conf ≠ "" → AccessKey conf ≠ "" → SecretKey conf ≠ "" →
  New parseRegions newMultiRegion conf σ =
    let images := fresh (dom (maps σ)) in
    let a := fresh (dom (objects σ)) in
    let cfg :=
      {| Credentials := credentials_NewStaticCredentials (AccessKey conf) (SecretKey conf) "";
         HTTPClient := {| Transport := {| TLSHandshakeTimeout := 30000000000 |};
                          Timeout := 30000000000 |} |} in
    let m := newMultiRegion cfg (parseRegions (Region conf) (RegionExclude conf)) in
    (Some a, None,
     {| objects := <[a := {| services := m; images := images |}]> (objects σ);
        maps := <[images := ∅]> (maps σ) |}).
Proof.
  intros H1 H2 H3. unfold New.
  destruct (decide (Region conf = "")); [done|].
  destruct (decide (AccessKey conf = "")); [done|].
  by destruct (decide (SecretKey conf = "")).
Qed.

End NewCases.

(** C6. [New] returns an error exactly when the region, the access key
    or the secret key of the configuration is empty.  The error is one of
    the three configuration messages; it comes with a nil pointer and an
    untouched heap, and it is the same whatever [parseRegions] and
    [newMultiRegion] are, so no handle was built for it.  An empty access
    key with a region set is reported as the missing access key.  With all
    three fields set, [New] returns a new object and no error. *)
Theorem New_configuration_error parseRegions newMultiRegion conf σ :
  (is_Some (New parseRegions newMultiRegion conf σ).1.2 ↔
   Region conf = "" ∨ AccessKey conf = "" ∨ SecretKey conf = "") ∧
  (Region conf = "" ∨ AccessKey conf = "" ∨ SecretKey conf = "" →
   ∃ what,
     what ∈ ["AWS Region is not set. "; "AWS Access Key is not set. ";
             "AWS Secret Key is not set. "] ∧
     New parseRegions newMultiRegion conf σ =
       (None, Some (errors_New (what +:+ "Please check your configuration")), σ) ∧
     ∀ parseRegions' newMultiRegion',
       New parseRegions' newMultiRegion' conf σ =
       New parseRegions newMultiRegion conf σ) ∧
  (AccessKey conf = "" → Region conf ≠ "" →
   New parseRegions newMultiRegion conf σ =
     (None,
      Some (errors_New "AWS Access Key is not set. Please check your configuration"),
      σ)) ∧
  (Region conf ≠ "" → AccessKey conf ≠ "" → SecretKey conf ≠ "" →
   ∃ a recv σ',
     New parseRegions newMultiRegion conf σ = (Some a, None, σ') ∧
     (a ∉ dom (objects σ)) ∧
     objects σ' !! a = Some recv ∧
     (images recv ∉ dom (maps σ)) ∧
     maps σ' !! images recv = Some ∅).
Proof.
  destruct (decide (Region conf = "")) as [Hregion|Hregion];
    [|destruct (decide (AccessKey conf = "")) as [Hkey|Hkey];
      [|destruct (decide (SecretKey conf = "")) as [Hsecret|Hsecret]]].
  - rewrite (New_no_region _ _ _ _ Hregion). simpl.
    split; [split; [by left | by eexists]|].
    split; [|split]; [|done..].
    intros _. exists "AWS Region is not set. ". split; [set_solver|].
    split; [done|]. intros pr nmr. by rewrite !New_no_region.
  - rewrite (New_no_access_key _ _ _ _ Hregion Hkey). simpl.
    split; [split; [by right; left | by eexists]|].
    split; [|split]; [|done..].
    intros _. exists "AWS Access Key is not set. ". split; [set_solver|].
    split; [done|]. intros pr nmr. by rewrite !New_no_access_key.
  - rewrite (New_no_secret_key _ _ _ _ Hregion Hkey Hsecret). simpl.
    split; [split; [by right; right | by eexists]|].
    split; [|split]; [|done..].
    intros _. exists "AWS Secret Key is not set. ". split; [set_solver|].
    split; [done|]. intros pr nmr. by rewrite !New_no_secret_key.
  - rewrite (New_complete _ _ _ _ Hregion Hkey Hsecret). simpl.
    split; [split; [by intros [? ?] | by intros [?|[?|?]]]|].
    split; [by intros [?|[?|?]]|]. split; [done|].
    intros _ _ _. do 3 eexists. split; [done|]. simpl.
    split; [apply is_fresh|]. split; [by rewrite lookup_insert_eq|]. simpl.
    split; [apply is_fresh|]. by rewrite lookup_insert_eq.
Qed.

Lemma New_configuration_error_witness :
  New single_region empty_handles no_access_key empty_heap =
    (None,
     Some (errors_New "AWS Access Key is not set. Please check your configuration"),
     empty_heap) ∧
  ∃ a recv σ',
    New single_region empty_handles complete empty_heap = (Some a, None, σ') ∧
    (a ∉ dom (objects empty_heap)) ∧
    objects σ' !! a = Some recv ∧
    (images recv ∉ dom (maps empty_heap)) ∧
    maps σ' !! images recv = Some ∅.
Proof.
  destruct (New_configuration_error single_region empty_handles no_access_key empty_heap)
    as (_ & _ & Hkey & _).
  destruct (New_configuration_error single_region empty_handles complete empty_heap)
    as (_ & _ & _ & Hnew).
  split.
  - apply Hkey; [reflexivity | discriminate].
  - apply Hnew; discriminate.
Defined.

(** ** Help *)

Lemma append_nil (s : string) : "" +:+ s = s.
Proof. reflexivity. Qed.

Lemma append_cons c (s1 s2 : string) : String c s1 +:+ s2 = String c (s1 +:+ s2).
Proof. reflexivity. Qed.

Lemma append_assoc (s1 s2 s3 : string) : (s1 +:+ s2) +:+ s3 = s1 +:+ (s2 +:+ s3).
Proof.
  induction s1 as [|c s1 IH]; [done|]. by rewrite !append_cons, IH.
Qed.

Lemma length_append (s1 s2 : string) :
  String.length (s1 +:+ s2) = String.length s1 + String.length s2.
Proof.
  induction s1 as [|c s1 IH]; [done|]. rewrite append_cons. simpl. by rewrite IH.
Qed.

Lemma has_char_append ch s1 s2 : has_char ch (s1 +:+ String ch s2) = true.
Proof.
  induction s1 as [|c s1 IH].
  - rewrite append_nil. simpl. by rewrite decide_True.
  - rewrite append_cons. simpl. by destruct (decide (c = ch)).
Qed.

(** A string that starts with a character the prefix does not have can
    only end [prefix +:+ s] by ending [s]. *)
Lemma ends_with_append prefix s ch rest :
  has_char ch prefix = false →
  ends_with (prefix +:+ s) (String ch rest) ↔ ends_with s (String ch rest).
Proof.
  intros Hch. split; intros [body Hbody].
  - revert body Hch Hbody. induction prefix as [|c prefix IH]; intros body Hch Hbody.
    + by exists body.
    + simpl in Hch. destruct (decide (c = ch)) as [->|Hne]; [done|].
      rewrite append_cons in Hbody. destruct body as [|b body].
      * rewrite append_nil in Hbody. by injection Hbody as -> _.
      * rewrite append_cons in Hbody. injection Hbody as _ Hbody.
        by apply (IH body).
  - exists (prefix +:+ body). by rewrite Hbody, append_assoc.
Qed.

Section HelpCases.

Variable newModifyFlags newDeleteFlags newCopyFlags : flagSet.

Lemma Help_modify :
  Help newModifyFlags newDeleteFlags newCopyFlags "modify"
  = helpMsg newModifyFlags +:+ global.
Proof. done. Qed.

Lemma Help_delete :
  Help newModifyFlags newDeleteFlags newCopyFlags "delete"
  = helpMsg newDeleteFlags +:+ global.
Proof. done. Qed.

Lemma Help_listing :
  Help newModifyFlags newDeleteFlags newCopyFlags "list" = listHelp +:+ global.
Proof. done. Qed.

Lemma Help_copy :
  Help newModifyFlags newDeleteFlags newCopyFlags "copy"
  = helpMsg newCopyFlags +:+ global.
Proof. done. Qed.

Lemma Help_default command :
  command ∉ ["modify"; "delete"; "list"; "copy"] →
  Help newModifyFlags newDeleteFlags newCopyFlags command
  = "no help found for command " +:+ command.
Proof.
  intros Hother. unfold Help.
  destruct (decide (command = "modify")) as [->|_]; [destruct Hother; set_solver|].
  destruct (decide (command = "delete")) as [->|_]; [destruct Hother; set_solver|].
  destruct (decide (command = "list")) as [->|_]; [destruct Hother; set_solver|].
  destruct (decide (command = "copy")) as [->|_]; [destruct Hother; set_solver|].
  done.
Qed.

End HelpCases.

(** C9. For a command other than the four known ones [Help] answers
    with the text "no help found for command " followed by the command;
    [Help] is a total function into strings, there is no error to raise. *)
Theorem Help_unknown newModifyFlags newDeleteFlags newCopyFlags command :
  command ≠ "modify" → command ≠ "delete" → command ≠ "list" → command ≠ "copy" →
  Help newModifyFlags newDeleteFlags newCopyFlags command
  = "no help found for command " +:+ command.
Proof.
  intros Hmodify Hdelete Hlist Hcopy. apply Help_default.
  set_unfold. intros [?|[?|[?|[?|[]]]]]; congruence.
Qed.

Lemma Help_unknown_witness :
  Help no_flags no_flags no_flags "launch" = "no help found for command launch".
Proof.
  apply (Help_unknown no_flags no_flags no_flags "launch"); discriminate.
Defined.

(** C10. For each of the four known commands the help ends with the
    block [global], which lists the flags -access-key, -secret-key,
    -region and -region-exclude.  For any other command [Help] returns
    before [global] is appended: the answer is the fixed text and the
    command, and it ends with the block only when the command itself
    does. *)
Theorem Help_global_block newModifyFlags newDeleteFlags newCopyFlags :
  (∀ command, command ∈ ["modify"; "delete"; "list"; "copy"] →
     ends_with (Help newModifyFlags newDeleteFlags newCopyFlags command) global) ∧
  (∀ flag, flag ∈ ["  -access-key "; "  -secret-key "; "  -region ";
                    "  -region-exclude "] →
     mentions global flag) ∧
  (∀ command, command ∉ ["modify"; "delete"; "list"; "copy"] →
     Help newModifyFlags newDeleteFlags newCopyFlags command
       = "no help found for command " +:+ command ∧
     (ends_with (Help newModifyFlags newDeleteFlags newCopyFlags command) global ↔
      ends_with command global)).
Proof.
  split; [|split].
  - intros command Hknown. set_unfold.
    destruct Hknown as [->|[->|[->|[->|[]]]]]; eexists.
    + apply Help_modify.
    + apply Help_delete.
    + apply Help_listing.
    + apply Help_copy.
  - intros flag Hflag. set_unfold.
    destruct Hflag as [->|[->|[->|[->|[]]]]].
    + exists (String.substring 0 1 global), (String.substring 15 308 global). vm_compute. reflexivity.
    + exists (String.substring 0 76 global), (String.substring 90 308 global). vm_compute. reflexivity.
    + exists (String.substring 0 151 global), (String.substring 161 308 global). vm_compute. reflexivity.
    + exists (String.substring 0 218 global), (String.substring 236 308 global). vm_compute. reflexivity.
  - intros command Hother.
    rewrite (Help_default _ _ _ command Hother). split; [done|].
    by apply (ends_with_append _ command "010"%char (String.substring 1 308 global)).
Qed.

Lemma Help_global_block_witness :
  ends_with (Help no_flags no_flags no_flags "list") global ∧
  mentions global "  -region-exclude " ∧
  Help no_flags no_flags no_flags "launch" = "no help found for command launch" ∧
  ¬ ends_with (Help no_flags no_flags no_flags "launch") global.
Proof.
  destruct (Help_global_block no_flags no_flags no_flags) as (Hknown & Hflags & Hother).
  split; [apply Hknown; do 2 right; left|].
  split; [apply Hflags; do 3 right; left|].
  destruct (Hother "launch") as [Htext Hends].
  { intros Hin. repeat (apply elem_of_cons in Hin as [Hin|Hin]; [discriminate Hin|]).
    by apply elem_of_nil in Hin. }
  split; [exact Htext|].
  intros Hglobal. apply Hends in Hglobal as [body Hbody].
  apply (f_equal String.length) in Hbody. rewrite length_append in Hbody.
  assert (String.length global = 308) as Hlen by reflexivity.
  rewrite Hlen in Hbody. simpl in Hbody. lia.
Defined.

(** ** Further properties of the fan-out *)

Lemma constituents_appended errs : constituents (appended None errs) = errs.
Proof. rewrite appended_None. by destruct errs. Qed.

Lemma appended_never_empty errs : appended None errs ≠ Some {| Errors := [] |}.
Proof. rewrite appended_None. by destruct errs. Qed.

(** X1. With no region in the registry the call launches nothing: it
    returns nil for the error and a map that exists and is empty. *)
Theorem MultiImages_no_region sort_Sort a input σ recv :
  objects σ !! a = Some recv →
  regions (services recv) = ∅ →
  (∃ l e σ', MultiImages sort_Sort a input σ l e σ') ∧
  ∀ l e σ', MultiImages sort_Sort a input σ l e σ' →
    e = None ∧ maps σ' !! l = Some ∅.
Proof.
  intros Hrecv Hempty. split; [by eapply MultiImages_total|].
  intros l e σ' Hret.
  apply MultiImages_inv in Hret
    as (recv' & order & Hrecv' & Hperm & -> & -> & _ & Hmaps).
  rewrite Hrecv in Hrecv'. injection Hrecv' as <-.
  rewrite Hempty, map_to_list_empty in Hperm. apply Permutation_nil_r in Hperm as ->.
  split; [done|]. by rewrite Hmaps, lookup_insert_eq, Hempty, omap_empty.
Qed.

Lemma MultiImages_no_region_witness :
  (∃ l e σ', MultiImages insertion_sort 1%positive owned (heap_of ∅) l e σ') ∧
  ∀ l e σ', MultiImages insertion_sort 1%positive owned (heap_of ∅) l e σ' →
    e = None ∧ maps σ' !! l = Some ∅.
Proof.
  apply (MultiImages_no_region insertion_sort 1%positive owned (heap_of ∅) (account ∅));
    reflexivity.
Defined.

(** X2. When every region fails the call still returns a map, an empty
    one, and the aggregate has one constituent per region. *)
Theorem MultiImages_all_fail sort_Sort a input σ recv :
  objects σ !! a = Some recv →
  (∀ r svc, regions (services recv) !! r = Some svc →
            (DescribeImages svc input).2 ≠ None) →
  (∃ l e σ', MultiImages sort_Sort a input σ l e σ') ∧
  ∀ l e σ', MultiImages sort_Sort a input σ l e σ' →
    maps σ' !! l = Some ∅ ∧
    length (constituents e) = size (regions (services recv)).
Proof.
  intros Hrecv Hall. split; [by eapply MultiImages_total|].
  intros l e σ' Hret.
  apply MultiImages_inv in Hret
    as (recv' & order & Hrecv' & Hperm & -> & -> & _ & Hmaps).
  rewrite Hrecv in Hrecv'. injection Hrecv' as <-.
  assert (omap (stored sort_Sort input) (regions (services recv)) = ∅) as Hnone.
  { apply map_eq. intros r. rewrite lookup_omap, lookup_empty.
    destruct (regions (services recv) !! r) as [svc|] eqn:Hr; [|done]. simpl.
    apply (stored_None sort_Sort input svc r). unfold fails, failure. simpl.
    specialize (Hall r svc Hr). by destruct (DescribeImages svc input).2. }
  split; [by rewrite Hmaps, lookup_insert_eq, Hnone|].
  rewrite constituents_appended, (length_failures input order _ Hperm).
  pose proof (size_stored_fails sort_Sort input (regions (services recv))) as Hsize.
  rewrite Hnone, map_size_empty in Hsize. lia.
Qed.

Lemma MultiImages_all_fail_witness :
  (∃ l e σ', MultiImages insertion_sort 1%positive owned (heap_of blackout) l e σ') ∧
  ∀ l e σ', MultiImages insertion_sort 1%positive owned (heap_of blackout) l e σ' →
    maps σ' !! l = Some ∅ ∧ length (constituents e) = 2.
Proof.
  destruct (MultiImages_all_fail insertion_sort 1%positive owned
              (heap_of blackout) (account blackout)) as [Hex Hall].
  - reflexivity.
  - intros r svc Hr. simpl in Hr. unfold blackout in Hr.
    repeat (apply lookup_insert_Some in Hr as [[<- <-]|[_ Hr]]; [discriminate|]).
    by rewrite lookup_empty in Hr.
  - split; [exact Hex|]. intros l e σ' Hret.
    destruct (Hall l e σ' Hret) as [Hm Hlen]. split; [exact Hm|].
    rewrite Hlen. reflexivity.
Defined.

(** X3. Every region is accounted for exactly once: in any run the keys
    of the returned map are regions of the registry, the number of keys
    plus the number of constituents of the error is the number of
    regions, and a non-nil error is never an aggregate of nothing. *)
Theorem MultiImages_accounts_for_all sort_Sort a input σ recv l e σ' :
  objects σ !! a = Some recv →
  MultiImages sort_Sort a input σ l e σ' →
  ∃ m, maps σ' !! l = Some m ∧
       dom m ⊆ dom (regions (services recv)) ∧
       size m + length (constituents e) = size (regions (services recv)) ∧
       e ≠ Some {| Errors := [] |}.
Proof.
  intros Hrecv Hret.
  apply MultiImages_inv in Hret
    as (recv' & order & Hrecv' & Hperm & -> & -> & _ & Hmaps).
  rewrite Hrecv in Hrecv'. injection Hrecv' as <-.
  eexists. split; [by rewrite Hmaps, lookup_insert_eq|].
  split; [apply dom_omap_subseteq|].
  split; [|apply appended_never_empty].
  rewrite constituents_appended, (length_failures input order _ Hperm).
  apply size_stored_fails.
Qed.

(** X4. The interleaving of the goroutines shows in the order of the
    aggregate's constituents and nowhere else: two runs of the same call
    return the same map object, leave the same heap, and their errors
    have the same constituents up to order. *)
Theorem MultiImages_schedule_independent sort_Sort a input σ l1 e1 σ1 l2 e2 σ2 :
  MultiImages sort_Sort a input σ l1 e1 σ1 →
  MultiImages sort_Sort a input σ l2 e2 σ2 →
  l1 = l2 ∧ σ1 = σ2 ∧ constituents e1 ≡ₚ constituents e2 ∧ (e1 = None ↔ e2 = None).
Proof.
  intros Hret1 Hret2.
  apply MultiImages_inv in Hret1
    as (recv & order1 & Hrecv & Hperm1 & -> & -> & Hobjs1 & Hmaps1).
  apply MultiImages_inv in Hret2
    as (recv' & order2 & Hrecv' & Hperm2 & -> & -> & Hobjs2 & Hmaps2).
  rewrite Hrecv in Hrecv'. injection Hrecv' as <-.
  assert (omap (failure input) order1 ≡ₚ omap (failure input) order2) as Herrs
    by by rewrite Hperm1, Hperm2.
  split; [done|]. split; [|split].
  - destruct σ1, σ2. simpl in *. congruence.
  - by rewrite !constituents_appended.
  - rewrite !appended_None_iff. split; intros Hnil; rewrite Hnil in Herrs.
    + by apply Permutation_nil_l in Herrs.
    + by apply Permutation_nil_r in Herrs.
Qed.

(** X5. The order of the constituents is the order in which the failing
    goroutines reached the lock, and every order can happen: for each
    way of lining up the registry's goroutines there is a run whose
    aggregate lists the failures in that order. *)
Theorem MultiImages_error_order sort_Sort a input σ recv order :
  objects σ !! a = Some recv →
  order ≡ₚ map_to_list (regions (services recv)) →
  ∃ l e σ', MultiImages sort_Sort a input σ l e σ' ∧
            constituents e = omap (λ rs : string * EC2, (DescribeImages rs.2 input).2) order.
Proof.
  intros Hrecv Hperm.
  destruct (MultiImages_in_returns sort_Sort input order a σ recv Hrecv Hperm)
    as (l & e & σ' & Hin & Hret).
  exists l, e, σ'. split; [done|].
  unfold MultiImages_in in Hin. rewrite Hrecv in Hin.
  destruct (make_map σ) as [images σ0]. injection Hin as _ <- _.
  rewrite fanOut_multiErrors. simpl. apply constituents_appended.
Qed.

Lemma MultiImages_accounts_for_all_witness :
  ∃ l e σ', MultiImages insertion_sort 1%positive owned (heap_of outage) l e σ' ∧
    ∃ m, maps σ' !! l = Some m ∧
         dom m ⊆ dom (regions (services (account outage))) ∧
         size m + length (constituents e) = size (regions (services (account outage))) ∧
         e ≠ Some {| Errors := [] |}.
Proof.
  destruct (MultiImages_total insertion_sort owned 1%positive (heap_of outage)
              (account outage) eq_refl) as (l & e & σ' & Hret).
  exists l, e, σ'. split; [exact Hret|].
  apply (MultiImages_accounts_for_all insertion_sort 1%positive owned
           (heap_of outage) (account outage) l e σ'); [reflexivity | exact Hret].
Defined.

Lemma MultiImages_schedule_independent_witness :
  ∃ l1 e1 σ1 l2 e2 σ2,
    MultiImages_in insertion_sort (map_to_list outage) 1%positive owned (heap_of outage)
      = Some (l1, e1, σ1) ∧
    MultiImages_in insertion_sort (reverse (map_to_list outage)) 1%positive owned
      (heap_of outage) = Some (l2, e2, σ2) ∧
    l1 = l2 ∧ σ1 = σ2 ∧ constituents e1 ≡ₚ constituents e2 ∧ (e1 = None ↔ e2 = None).
Proof.
  destruct (MultiImages_in_returns insertion_sort owned (map_to_list outage)
              1%positive (heap_of outage) (account outage) eq_refl)
    as (l1 & e1 & σ1 & Hin1 & Hret1); [reflexivity|].
  destruct (MultiImages_in_returns insertion_sort owned (reverse (map_to_list outage))
              1%positive (heap_of outage) (account outage) eq_refl)
    as (l2 & e2 & σ2 & Hin2 & Hret2); [apply reverse_Permutation|].
  exists l1, e1, σ1, l2, e2, σ2. split; [exact Hin1|]. split; [exact Hin2|].
  exact (MultiImages_schedule_independent insertion_sort 1%positive owned
           (heap_of outage) l1 e1 σ1 l2 e2 σ2 Hret1 Hret2).
Defined.

Lemma MultiImages_error_order_witness :
  (∃ l e σ', MultiImages insertion_sort 1%positive owned (heap_of outage) l e σ' ∧
             constituents e = omap (failure owned) (map_to_list outage)) ∧
  (∃ l e σ', MultiImages insertion_sort 1%positive owned (heap_of outage) l e σ' ∧
             constituents e = reverse (omap (failure owned) (map_to_list outage))) ∧
  length (omap (failure owned) (map_to_list outage)) = 2.
Proof.
  split; [|split].
  - apply (MultiImages_error_order insertion_sort 1%positive owned (heap_of outage)
             (account outage) (map_to_list outage)); reflexivity.
  - destruct (MultiImages_error_order insertion_sort 1%positive owned (heap_of outage)
                (account outage) (reverse (map_to_list outage)))
      as (l & e & σ' & Hret & He); [reflexivity | apply reverse_Permutation |].
    exists l, e, σ'. split; [exact Hret|]. rewrite He. vm_compute. reflexivity.
  - vm_compute. reflexivity.
Defined.

(** ** Further properties of New *)

(** X6. The checks of [New] run in a fixed order: a missing region is
    reported whatever the keys are, a missing access key only when the
    region is set, a missing secret key only when both are; the region
    to exclude plays no part. *)
Theorem New_error_precedence parseRegions newMultiRegion conf σ :
  (Region conf = "" →
   New parseRegions newMultiRegion conf σ =
     (None, Some (errors_New "AWS Region is not set. Please check your configuration"),
      σ)) ∧
  (Region conf ≠ "" → AccessKey conf = "" →
   New parseRegions newMultiRegion conf σ =
     (None,
      Some (errors_New "AWS Access Key is not set. Please check your configuration"),
      σ)) ∧
  (Region conf ≠ "" → AccessKey conf ≠ "" → SecretKey conf = "" →
   New parseRegions newMultiRegion conf σ =
     (None,
      Some (errors_New "AWS Secret Key is not set. Please check your configuration"),
      σ)) ∧
  ∀ exclude,
    (New parseRegions newMultiRegion conf σ).1.2 =
    (New parseRegions newMultiRegion
       {| Region := Region conf; RegionExclude := exclude;
          AccessKey := AccessKey conf; SecretKey := SecretKey conf |} σ).1.2.
Proof.
  split; [apply New_no_region|]. split; [apply New_no_access_key|].
  split; [apply New_no_secret_key|].
  intros exclude.
  destruct (decide (Region conf = "")) as [Hregion|Hregion];
    [|destruct (decide (AccessKey conf = "")) as [Hkey|Hkey];
      [|destruct (decide (SecretKey conf = "")) as [Hsecret|Hsecret]]].
  - by rewrite !New_no_region.
  - by rewrite !New_no_access_key.
  - by rewrite !New_no_secret_key.
  - by rewrite !New_complete.
Qed.

Lemma New_error_precedence_witness :
  New single_region empty_handles nothing_set empty_heap =
    (None, Some (errors_New "AWS Region is not set. Please check your configuration"),
     empty_heap).
Proof.
  apply (New_error_precedence single_region empty_handles nothing_set empty_heap).
  reflexivity.
Defined.

(** X7. [New] answers with exactly one of a pointer and an error.  It
    changes nothing that was in the heap; when it succeeds the heap has
    one object and one map more, the map empty and held by the object,
    and the object's registry is what [newMultiRegion] built from the two
    keys, an empty session token, a timeout of thirty seconds and the
    regions [parseRegions] read from the configuration. *)
Theorem New_frame parseRegions newMultiRegion conf σ a err σ' :
  New parseRegions newMultiRegion conf σ = (a, err, σ') →
  (is_Some a ↔ err = None) ∧
  (∀ l, l ∈ dom (objects σ) → objects σ' !! l = objects σ !! l) ∧
  (∀ l, l ∈ dom (maps σ) → maps σ' !! l = maps σ !! l) ∧
  (a = None → σ' = σ) ∧
  ∀ p, a = Some p →
    ∃ recv,
      objects σ' !! p = Some recv ∧
      maps σ' !! images recv = Some ∅ ∧
      dom (objects σ') = {[p]} ∪ dom (objects σ) ∧
      dom (maps σ') = {[images recv]} ∪ dom (maps σ) ∧
      services recv =
        newMultiRegion
          {| Credentials := {| AccessKeyID := AccessKey conf;
                               SecretAccessKey := SecretKey conf;
                               SessionToken := "" |};
             HTTPClient := {| Transport := {| TLSHandshakeTimeout := 30 * time_Second |};
                              Timeout := 30 * time_Second |} |}
          (parseRegions (Region conf) (RegionExclude conf)).
Proof.
  destruct (decide (Region conf = "")) as [Hregion|Hregion];
    [|destruct (decide (AccessKey conf = "")) as [Hkey|Hkey];
      [|destruct (decide (SecretKey conf = "")) as [Hsecret|Hsecret]]].
  - rewrite New_no_region by done. intros [= <- <- <-].
    repeat split; try done; try by intros [? ?].
  - rewrite New_no_access_key by done. intros [= <- <- <-].
    repeat split; try done; try by intros [? ?].
  - rewrite New_no_secret_key by done. intros [= <- <- <-].
    repeat split; try done; try by intros [? ?].
  - rewrite New_complete by done. simpl. intros [= <- <- <-]. simpl.
    split; [split; [done | by eexists]|].
    split.
    { intros l Hl. apply lookup_insert_ne. intros <-.
      by apply (is_fresh (dom (objects σ))). }
    split.
    { intros l Hl. apply lookup_insert_ne. intros <-.
      by apply (is_fresh (dom (maps σ))). }
    split; [done|]. intros p [= <-]. eexists.
    split; [apply lookup_insert_eq|]. simpl.
    split; [apply lookup_insert_eq|].
    split; [apply dom_insert_L|]. split; [apply dom_insert_L|]. done.
Qed.

Lemma New_frame_witness :
  ∃ a err σ',
    New single_region empty_handles complete (heap_of healthy) = (a, err, σ') ∧
    (is_Some a ↔ err = None) ∧
    objects σ' !! 1%positive = Some (account healthy) ∧
    maps σ' !! 2%positive = Some ∅.
Proof.
  destruct (New single_region empty_handles complete (heap_of healthy))
    as [[a err] σ'] eqn:Hnew.
  exists a, err, σ'. split; [reflexivity|].
  destruct (New_frame single_region empty_handles complete (heap_of healthy) a err σ' Hnew)
    as (Hone & Hobjs & Hmaps & _).
  split; [exact Hone|]. split.
  - etrans; [apply (Hobjs 1%positive); vm_compute; reflexivity | reflexivity].
  - etrans; [apply (Hmaps 2%positive); vm_compute; reflexivity | reflexivity].
Defined.

Lemma New_success_inv parseRegions newMultiRegion conf σ a err σ0 :
  New parseRegions newMultiRegion conf σ = (Some a, err, σ0) →
  ∃ recv, objects σ0 !! a = Some recv ∧
          maps σ0 !! images recv = Some ∅ ∧
          services recv =
            newMultiRegion
              {| Credentials :=
                   credentials_NewStaticCredentials (AccessKey conf) (SecretKey conf) "";
                 HTTPClient := {| Transport := {| TLSHandshakeTimeout := 30000000000 |};
                                  Timeout := 30000000000 |} |}
              (parseRegions (Region conf) (RegionExclude conf)).
Proof.
  destruct (decide (Region conf = "")) as [Hregion|Hregion];
    [|destruct (decide (AccessKey conf = "")) as [Hkey|Hkey];
      [|destruct (decide (SecretKey conf = "")) as [Hsecret|Hsecret]]].
  - by rewrite New_no_region.
  - by rewrite New_no_access_key.
  - by rewrite New_no_secret_key.
  - rewrite New_complete by done. simpl. intros [= <- <- <-]. simpl.
    eexists. split; [apply lookup_insert_eq|]. simpl.
    split; [apply lookup_insert_eq | done].
Qed.

(** X8. The object [New] returns can be queried at once, and a query
    never fills the map the object holds: the call returns another map,
    and the object's own map is as empty after the call as [New] made
    it.  What the returned map holds is read off the registry that
    [newMultiRegion] built. *)
Theorem New_then_MultiImages sort_Sort parseRegions newMultiRegion conf σ a err σ0 input :
  New parseRegions newMultiRegion conf σ = (Some a, err, σ0) →
  (∃ l e σ', MultiImages sort_Sort a input σ0 l e σ') ∧
  ∀ l e σ', MultiImages sort_Sort a input σ0 l e σ' →
    ∃ recv m,
      objects σ' !! a = Some recv ∧
      l ≠ images recv ∧
      maps σ' !! images recv = Some ∅ ∧
      maps σ' !! l = Some m ∧
      ∀ r, m !! r =
           regions (newMultiRegion
                      {| Credentials :=
                           credentials_NewStaticCredentials
                             (AccessKey conf) (SecretKey conf) "";
                         HTTPClient :=
                           {| Transport := {| TLSHandshakeTimeout := 30000000000 |};
                              Timeout := 30000000000 |} |}
                      (parseRegions (Region conf) (RegionExclude conf))) !! r
           ≫= stored sort_Sort input.
Proof.
  intros Hnew.
  destruct (New_success_inv _ _ _ _ _ _ _ Hnew) as (recv & Hrecv & Hown & Hservices).
  split; [by eapply MultiImages_total|].
  intros l e σ' Hret.
  apply MultiImages_inv in Hret
    as (recv' & order & Hrecv' & Hperm & Hl & -> & Hobjs & Hmaps).
  rewrite Hrecv in Hrecv'. injection Hrecv' as <-.
  assert (l ≠ images recv) as Hne.
  { intros Heq. apply (is_fresh (dom (maps σ0))). rewrite <- Hl, Heq.
    apply elem_of_dom. by eexists. }
  exists recv, (omap (stored sort_Sort input) (regions (services recv))).
  split; [by rewrite Hobjs|]. split; [done|].
  split; [by rewrite Hmaps, lookup_insert_ne|].
  split; [by rewrite Hmaps, lookup_insert_eq|].
  intros r. by rewrite lookup_omap, Hservices.
Qed.

Lemma New_then_MultiImages_witness :
  ∃ a err σ0,
    New single_region empty_handles complete empty_heap = (Some a, err, σ0) ∧
    (∃ l e σ', MultiImages insertion_sort a owned σ0 l e σ') ∧
    ∀ l e σ', MultiImages insertion_sort a owned σ0 l e σ' →
      ∃ recv m,
        objects σ' !! a = Some recv ∧ l ≠ images recv ∧
        maps σ' !! images recv = Some ∅ ∧
        maps σ' !! l = Some m ∧
        m !! "us-east-1" = Some [].
Proof.
  destruct (New single_region empty_handles complete empty_heap)
    as [[[a|] err] σ0] eqn:Hnew; [|discriminate Hnew].
  exists a, err, σ0. split; [reflexivity|].
  destruct (New_then_MultiImages insertion_sort single_region empty_handles complete
              empty_heap a err σ0 owned Hnew) as [Hex Hall].
  split; [exact Hex|]. intros l e σ' Hret.
  destruct (Hall l e σ' Hret) as (recv & m & Hrecv & Hne & Hown & Hm & Hkeys).
  exists recv, m. repeat (split; [assumption|]).
  rewrite Hkeys. reflexivity.
Defined.

(** ** ownerImages *)

(** X9. [ownerImages] is the fan-out of one request, the one whose
    owners are [stringSlice("self")] and whose other fields are unset:
    it returns on an allocated receiver; its error is nil exactly when
    every handle answers that request without error; the map it returns
    holds, for each region, the sorted answer to that request or no key;
    every object and every earlier map is left as it was. *)
Theorem ownerImages_outcome sort_Sort stringSlice a σ recv :
  objects σ !! a = Some recv →
  (∃ l e σ', ownerImages sort_Sort stringSlice a σ l e σ') ∧
  ∀ l e σ', ownerImages sort_Sort stringSlice a σ l e σ' →
    (e = None ↔
     ∀ r svc, regions (services recv) !! r = Some svc →
       (DescribeImages svc {| ImageIds := []; Owners := stringSlice ["self"];
                              ExecutableUsers := [] |}).2 = None) ∧
    objects σ' = objects σ ∧
    (∀ l', l' ∈ dom (maps σ) → maps σ' !! l' = maps σ !! l') ∧
    ∃ m, maps σ' !! l = Some m ∧
      ∀ r svc, regions (services recv) !! r = Some svc →
        m !! r =
        match DescribeImages svc {| ImageIds := []; Owners := stringSlice ["self"];
                                    ExecutableUsers := [] |} with
        | (resp, None) => Some (sortImages sort_Sort (Images resp))
        | (_, Some _) => None
        end.
Proof.
  intros Hrecv. unfold ownerImages.
  split; [by eapply MultiImages_total|].
  intros l e σ' Hret.
  apply MultiImages_inv in Hret
    as (recv' & order & Hrecv' & Hperm & Hl & -> & Hobjs & Hmaps).
  rewrite Hrecv in Hrecv'. injection Hrecv' as <-.
  split; [rewrite appended_None_iff; by apply failures_nil|].
  split; [done|]. split.
  { intros l' Hl'. rewrite Hmaps. apply lookup_insert_ne. intros <-.
    rewrite Hl in Hl'. by apply (is_fresh (dom (maps σ))). }
  eexists. split; [by rewrite Hmaps, lookup_insert_eq|].
  intros r svc Hr. rewrite (lookup_stored _ _ _ r svc Hr).
  unfold stored, answer, ownerImages_input.
  by destruct (DescribeImages svc _) as [resp [err|]].
Qed.

Lemma ownerImages_outcome_witness :
  (∃ l e σ', ownerImages insertion_sort id 1%positive (heap_of private) l e σ') ∧
  ∀ l e σ', ownerImages insertion_sort id 1%positive (heap_of private) l e σ' →
    e = None ∧
    ∃ m, maps σ' !! l = Some m ∧
         m !! "us-east-1" = Some [image "ami-a" 1; image "ami-c" 3].
Proof.
  destruct (ownerImages_outcome insertion_sort id 1%positive (heap_of private)
              (account private)) as [Hex Hall]; [reflexivity|].
  split; [exact Hex|]. intros l e σ' Hret.
  destruct (Hall l e σ' Hret) as (Hnil & _ & _ & m & Hm & Hkeys).
  split.
  - apply Hnil. intros r svc Hr. simpl in Hr. unfold private in Hr.
    apply lookup_insert_Some in Hr as [[<- <-]|[_ Hr]]; [reflexivity|].
    by rewrite lookup_empty in Hr.
  - exists m. split; [exact Hm|].
    exact (Hkeys "us-east-1" (own_only [image "ami-c" 3; image "ami-a" 1]) eq_refl).
Defined.

(** ** Further properties of Help and of the runs *)

(** X10. [Help] never answers with an empty text: whatever the command
    and whatever the flag sets say, the answer has at least the 26
    characters of "no help found for command ". *)
Theorem Help_never_empty newModifyFlags newDeleteFlags newCopyFlags command :
  Help newModifyFlags newDeleteFlags newCopyFlags command ≠ "" ∧
  26 ≤ String.length (Help newModifyFlags newDeleteFlags newCopyFlags command).
Proof.
  assert (26 ≤ String.length (Help newModifyFlags newDeleteFlags newCopyFlags command))
    as Hlen.
  { assert (String.length global = 308) as Hglobal by reflexivity.
    unfold Help. repeat case_decide; rewrite length_append; [lia..|].
    change (String.length "no help found for command ") with 26. lia. }
  split; [|done].
  intros Hempty. rewrite Hempty in Hlen. simpl in Hlen. lia.
Qed.

